(** * splinter/pairs: the key/value pair analyzer

    A shallow embedding of [pairs.go] (package [pairs] of
    github.com/ZipRecruiter/splinter): the two flag values [funcOffset] and
    [typeWhitelist] with their [Set] methods, the closures [isWhitelisted]
    and [argsCorrect] of [NewAnalyzer], and the body of the [Run] callback.

    A run-time panic of the analyzer is a result [None]: of an index or
    slice expression out of range, and of [Path] on the nil package of a
    named type of the universe scope, as the predeclared [error].

    The Go libraries the package calls are modelled as far as the package
    uses them:
    - [regexp]: a backtracking matcher with Go's leftmost-first choice of
      submatches, for the constructs of the two patterns of the package;
    - [strconv.Atoi];
    - [go/types], [go/constant], [go/ast]: the facts that the analyzer reads
      from the type checker (the recorded type and constant value of an
      expression, the selection behind a selector expression). *)

From Stdlib Require Import ZArith Ascii String List Lia Bool.
From stdpp Require Import base tactics option list gmap strings pretty.

Local Open Scope string_scope.
Local Open Scope list_scope.
Local Open Scope Z_scope.

(** ** Strings as byte sequences *)

(** Go strings are byte sequences; the matcher works on [list ascii]. All
    characters the two patterns test for are ASCII, so matching bytes and
    matching UTF-8 runes agree. *)

Abbreviation bytes := (list ascii).

Definition to_bytes (s : string) : bytes := list_ascii_of_string s.
Definition of_bytes (l : bytes) : string := string_of_list_ascii l.

(** ** Package regexp *)

Module Regexp.

(** The syntax needed for the patterns of the package. A non-capturing
    group [(?:r)] is [r] itself. *)
Inductive regex : Type :=
| Bol                              (* ^ , without the m flag *)
| Eol                              (* $ , without the m flag *)
| Lit (c : ascii)                  (* a literal character, also \. *)
| AnyNotNL                         (* .  , without the s flag *)
| NoneOf (cs : list ascii)         (* [^...] ; it matches newline too *)
| Digit                            (* \d *)
| Cat (r1 r2 : regex)
| Quest (r : regex)                (* r?  , prefers one *)
| StarLazy (r : regex)             (* r*? , prefers fewer *)
| Plus (r : regex)                 (* r+  , prefers more *)
| Group (n : nat) (r : regex).     (* the n-th capturing group *)

(** Submatches are kept as index pairs [(start, end)] into the input,
    like the [cap] array of the matcher. *)
Abbreviation caps := (gmap nat (nat * nat)).

(** A continuation takes the current position, the rest of the input and
    the submatches so far. *)
Definition cont : Type := nat -> bytes -> caps -> option caps.

Definition is_digit (c : ascii) : bool :=
  (48 <=? nat_of_ascii c)%nat && (nat_of_ascii c <=? 57)%nat.

Definition is_newline (c : ascii) : bool := Ascii.eqb c "010"%char.

Definition none_of (cs : list ascii) (c : ascii) : bool :=
  negb (existsb (Ascii.eqb c) cs).

Definition one_char (f : ascii -> bool) : nat -> bytes -> caps -> cont -> option caps :=
  fun pos s cs k =>
    match s with
    | c :: s' => if f c then k (S pos) s' cs else None
    | [] => None
    end.

(** [r*?]: leave the loop first, run the body again only if that fails. An
    iteration has to consume input. *)
Fixpoint lazy_loop (body : nat -> bytes -> caps -> cont -> option caps)
    (fuel : nat) (pos : nat) (s : bytes) (cs : caps) (k : cont) : option caps :=
  match k pos s cs with
  | Some res => Some res
  | None =>
      match fuel with
      | O => None
      | S fuel' =>
          body pos s cs (fun pos' s' cs' =>
            if (length s' <? length s)%nat
            then lazy_loop body fuel' pos' s' cs' k else None)
      end
  end.

(** [r*]: run the body again first, leave the loop if that fails. *)
Fixpoint greedy_loop (body : nat -> bytes -> caps -> cont -> option caps)
    (fuel : nat) (pos : nat) (s : bytes) (cs : caps) (k : cont) : option caps :=
  match fuel with
  | O => k pos s cs
  | S fuel' =>
      match body pos s cs (fun pos' s' cs' =>
              if (length s' <? length s)%nat
              then greedy_loop body fuel' pos' s' cs' k else None) with
      | Some res => Some res
      | None => k pos s cs
      end
  end.

(** The backtracking matcher: the first alternative that lets the
    continuation succeed wins. *)
Fixpoint run (r : regex) : nat -> bytes -> caps -> cont -> option caps :=
  match r with
  | Bol => fun pos s cs k => if (pos =? 0)%nat then k pos s cs else None
  | Eol => fun pos s cs k => match s with [] => k pos s cs | _ :: _ => None end
  | Lit c => one_char (Ascii.eqb c)
  | AnyNotNL => one_char (fun c => negb (is_newline c))
  | NoneOf l => one_char (none_of l)
  | Digit => one_char is_digit
  | Cat r1 r2 => fun pos s cs k =>
      run r1 pos s cs (fun pos' s' cs' => run r2 pos' s' cs' k)
  | Quest r1 => fun pos s cs k =>
      match run r1 pos s cs k with
      | Some res => Some res
      | None => k pos s cs
      end
  | StarLazy r1 => fun pos s cs k => lazy_loop (run r1) (length s) pos s cs k
  | Plus r1 => fun pos s cs k =>
      run r1 pos s cs (fun pos' s' cs' =>
        greedy_loop (run r1) (length s') pos' s' cs' k)
  | Group n r1 => fun pos s cs k =>
      run r1 pos s cs (fun pos' s' cs' => k pos' s' (<[n := (pos, pos')]> cs'))
  end.

Fixpoint NumSubexp (r : regex) : nat :=
  match r with
  | Cat r1 r2 => Nat.max (NumSubexp r1) (NumSubexp r2)
  | Quest r1 | StarLazy r1 | Plus r1 => NumSubexp r1
  | Group n r1 => Nat.max n (NumSubexp r1)
  | _ => O
  end.

(** The unanchored search: the leftmost start position with a match. *)
Fixpoint search (r : regex) (pos : nat) (s : bytes) : option caps :=
  match run r pos s ∅ (fun pos' _ cs => Some (<[O := (pos, pos')]> cs)) with
  | Some res => Some res
  | None =>
      match s with
      | [] => None
      | _ :: s' => search r (S pos) s'
      end
  end.

Definition submatch (input : bytes) (cs : caps) (i : nat) : string :=
  match cs !! i with
  | Some (b, e) => of_bytes (take (e - b) (drop b input))
  | None => ""
  end.

(** [re.FindStringSubmatch(v)]: [nil] (the empty list) when nothing
    matches, else the match and the text of every group, [""] for a group
    that took no part. *)
Definition FindStringSubmatch (re : regex) (v : string) : list string :=
  match search re O (to_bytes v) with
  | Some cs => map (submatch (to_bytes v) cs) (seq 0 (S (NumSubexp re)))
  | None => []
  end.

End Regexp.

Import Regexp.

(** The two patterns of the package. *)

(* ^(?:(.*?)(?:\.([^\./]+))?)?\.([^\.]+)=(\d+)$ *)
Definition funcOffsetMatcher : regex :=
  Cat Bol
   (Cat (Quest (Cat (Group 1 (StarLazy AnyNotNL))
                    (Quest (Cat (Lit ".") (Group 2 (Plus (NoneOf ["."; "/"]%char)))))))
   (Cat (Lit ".")
   (Cat (Group 3 (Plus (NoneOf ["."%char])))
   (Cat (Lit "=")
   (Cat (Group 4 (Plus Digit))
        Eol))))).

(* ^(.*?)\.([^\./]+)$ *)
Definition typeWhitelistMatcher : regex :=
  Cat Bol
   (Cat (Group 1 (StarLazy AnyNotNL))
   (Cat (Lit ".")
   (Cat (Group 2 (Plus (NoneOf ["."; "/"]%char)))
        Eol))).

(** ** Package errors and strconv *)

(** An [error] value: [errors.New(msg)] or a [*strconv.NumError]. *)
Inductive error : Type :=
| errorString (msg : string)
| NumError (Func Num : string) (Err : error).

Module errors.
Definition New (msg : string) : error := errorString msg.
End errors.

Module strconv.

(* the size of an int on a 64-bit platform *)
Definition IntSize : Z := 64.
Definition maxInt : Z := 2 ^ (IntSize - 1) - 1.
Definition minInt : Z := - 2 ^ (IntSize - 1).

Definition ErrSyntax : error := errors.New "invalid syntax".
Definition ErrRange : error := errors.New "value out of range".

Fixpoint digits (acc : Z) (l : bytes) : option Z :=
  match l with
  | [] => Some acc
  | c :: l' =>
      if is_digit c
      then digits (acc * 10 + (Z.of_nat (nat_of_ascii c) - 48)) l'
      else None
  end.

(** [strconv.Atoi]: an optional sign and decimal digits; a syntax error
    for anything else, a range error beyond the [int] range (the nearest
    bound is returned with it). *)
Definition Atoi (s : string) : Z * option error :=
  let b := to_bytes s in
  let '(neg, ds) :=
    match b with
    | c :: r =>
        if Ascii.eqb c "-" then (true, r)
        else if Ascii.eqb c "+" then (false, r)
        else (false, b)
    | [] => (false, b)
    end in
  match ds with
  | [] => (0, Some (NumError "Atoi" s ErrSyntax))
  | _ :: _ =>
      match digits 0 ds with
      | None => (0, Some (NumError "Atoi" s ErrSyntax))
      | Some n =>
          let v := if neg : bool then - n else n in
          if maxInt <? v then (maxInt, Some (NumError "Atoi" s ErrRange))
          else if v <? minInt then (minInt, Some (NumError "Atoi" s ErrRange))
          else (v, None)
      end
  end.

End strconv.

(** [err.Error()]. [strconv.Quote] is rendered for text without quotes,
    backslashes and control characters, which is what [\d+] lets through. *)
Fixpoint Error (e : error) : string :=
  match e with
  | errorString msg => msg
  | NumError f num err =>
      "strconv." +:+ f +:+ ": parsing " +:+ String "034" (num +:+ String "034" (": " +:+ Error err))
  end.

(** ** The flag values *)

Record funcSelector : Type := mkSel { pkg : string; typ : string; fun_ : string }.

Global Instance funcSelector_eq_dec : EqDecision funcSelector.
Proof. solve_decision. Defined.

Global Instance funcSelector_countable : Countable funcSelector.
Proof.
  refine (inj_countable' (fun s => (pkg s, typ s, fun_ s))
                         (fun t => mkSel t.1.1 t.1.2 t.2) _).
  by intros [].
Defined.

(* type funcOffset map[funcSelector]int *)
Abbreviation funcOffset := (gmap funcSelector Z).

Record whitelistableType : Type := mkWT { wpkg : string; wtyp : string }.

Global Instance whitelistableType_eq_dec : EqDecision whitelistableType.
Proof. solve_decision. Defined.

Global Instance whitelistableType_countable : Countable whitelistableType.
Proof.
  refine (inj_countable' (fun w => (wpkg w, wtyp w)) (fun t => mkWT t.1 t.2) _).
  by intros [].
Defined.

(* type typeWhitelist map[whitelistableType]bool *)
Abbreviation typeWhitelist := (gmap whitelistableType bool).

(** Reading a Go map: the zero value stands for a missing key. *)
Definition wl_get (w : typeWhitelist) (k : whitelistableType) : bool :=
  default false (w !! k).

(** The comma-ok form [v, ok := m[k]]. *)
Definition comma_ok (o : funcOffset) (k : funcSelector) : Z * bool :=
  match o !! k with
  | Some v => (v, true)
  | None => (0, false)
  end.

(** [func (o funcOffset) Set(v string) error]: the map after the call and
    the error returned. *)
Definition funcOffset_Set (o : funcOffset) (v : string) : funcOffset * option error :=
  let m := FindStringSubmatch funcOffsetMatcher v in
  if negb (length m =? 5)%nat then
    (o, Some (errors.New "invalid func offset; should be of form [pkg[.type]].<func>=<offset>"))
  else
    let '(val, err) := strconv.Atoi (m !!! 4%nat) in
    match err with
    | Some e => (o, Some e)
    | None =>
        (<[ {| pkg := m !!! 1%nat; typ := m !!! 2%nat; fun_ := m !!! 3%nat |} := val ]> o, None)
    end.

(** [func (w typeWhitelist) Set(v string) error]. *)
Definition typeWhitelist_Set (w : typeWhitelist) (v : string) : typeWhitelist * option error :=
  let m := FindStringSubmatch typeWhitelistMatcher v in
  if negb (length m =? 3)%nat then
    (w, Some (errors.New "invalid type whitelist; should be of form <pkg>.<type>"))
  else
    (<[ {| wpkg := m !!! 1%nat; wtyp := m !!! 2%nat |} := true ]> w, None).

(** [flag.FlagSet.Set] called once per occurrence of the flag: the first
    error stops the parse. *)
Fixpoint funcOffset_SetAll (o : funcOffset) (vs : list string) : funcOffset * option error :=
  match vs with
  | [] => (o, None)
  | v :: vs' =>
      match funcOffset_Set o v with
      | (o', None) => funcOffset_SetAll o' vs'
      | (o', Some e) => (o', Some e)
      end
  end.

(** ** What the analyzer reads from go/constant, go/types and go/ast *)

Module constant.
(* const ( Unknown Kind = iota; Bool; String; Int; Float; Complex ) *)
Inductive Kind : Type := Unknown | Bool | String | Int | Float | Complex.

Global Instance Kind_eq_dec : EqDecision Kind.
Proof. solve_decision. Defined.

(** A constant value; only its kind is read. *)
Record Value : Type := mkValue { kind : Kind; text : string }.
End constant.

Module types.

Inductive BasicKind : Type :=
| Invalid
| Bool | Int | Int8 | Int16 | Int32 | Int64
| Uint | Uint8 | Uint16 | Uint32 | Uint64 | Uintptr
| Float32 | Float64 | Complex64 | Complex128
| String | UnsafePointer
| UntypedBool | UntypedInt | UntypedRune | UntypedFloat | UntypedComplex
| UntypedString | UntypedNil.

Global Instance BasicKind_eq_dec : EqDecision BasicKind.
Proof. solve_decision. Defined.

(** A type as the checker reports it.
    - A basic type has a kind and a name: [byte] and [rune] are basic types
      of their own, of the kinds [Uint8] and [Int32].
    - A named type is described by its object and by what [Underlying()]
      returns. [pkg] is the path of [Obj().Pkg()], and [None] when
      [Obj().Pkg()] is nil: the predeclared type [error] is a named type of
      the universe scope and has no package.
    - The type forms the analyzer never looks into are described by their
      printed form. *)
Inductive Type_ : Type :=
| Basic (k : BasicKind) (name : string)
| Named (pkg : option string) (name : string) (underlying : Type_)
| Pointer (elem : Type_)
| Slice (elem : Type_)
| Map (key elem : Type_)
| Other (printed : string).

Fixpoint Underlying (t : Type_) : Type_ :=
  match t with
  | Named _ _ u => Underlying u
  | _ => t
  end.

Definition BasicName (k : BasicKind) : string :=
  match k with
  | Invalid => "invalid type"
  | Bool => "bool" | Int => "int" | Int8 => "int8" | Int16 => "int16"
  | Int32 => "int32" | Int64 => "int64"
  | Uint => "uint" | Uint8 => "uint8" | Uint16 => "uint16"
  | Uint32 => "uint32" | Uint64 => "uint64" | Uintptr => "uintptr"
  | Float32 => "float32" | Float64 => "float64"
  | Complex64 => "complex64" | Complex128 => "complex128"
  | String => "string" | UnsafePointer => "unsafe.Pointer"
  | UntypedBool => "untyped bool" | UntypedInt => "untyped int"
  | UntypedRune => "untyped rune" | UntypedFloat => "untyped float"
  | UntypedComplex => "untyped complex" | UntypedString => "untyped string"
  | UntypedNil => "untyped nil"
  end.

(** [types.Typ[k]], and the two aliases of the universe scope. *)
Definition Predeclared (k : BasicKind) : Type_ := Basic k (BasicName k).
Definition universeByte : Type_ := Basic Uint8 "byte".
Definition universeRune : Type_ := Basic Int32 "rune".

(** The predeclared type [error]. *)
Definition universeError : Type_ := Named None "error" (Other "interface{Error() string}").

(** [Path], a method of the pointer to [Package], reads a field of its
    receiver: on the nil package it is a nil-pointer dereference. [None] is
    that run-time panic. *)
Definition Path (pkg : option string) : option string := pkg.

(** The package qualification of a type name without a qualifier: the
    path and a dot, nothing for no package and for an empty path. *)
Definition writePackage (pkg : option string) : string :=
  match pkg with
  | Some path => if String.eqb path "" then "" else path +:+ "."
  | None => ""
  end.

Fixpoint printType (t : Type_) : string :=
  match t with
  | Basic _ name => name
  | Named pkg name _ => writePackage pkg +:+ name
  | Pointer e => "*" +:+ printType e
  | Slice e => "[]" +:+ printType e
  | Map k e => "map[" +:+ printType k +:+ "]" +:+ printType e
  | Other printed => printed
  end.

(** [types.TypeString(typ, nil)]: package paths in full; a nil type
    prints as [<nil>]. *)
Definition TypeString (t : option Type_) : string :=
  match t with
  | Some t' => printType t'
  | None => "<nil>"
  end.

(** [types.TypeAndValue]; the fields [Type] (here [Typ]) and [Value] may
    both be nil. *)
Record TypeAndValue : Type :=
  mkTV { Typ : option Type_; Value : option constant.Value }.

(** A [*types.Selection] of a method or field: the receiver type and
    what [types.SelectionString(sel, nil)] prints. *)
Record Selection : Type := mkSelection { Recv : Type_; SelectionString : string }.

End types.

Module ast.

(* token.Pos *)
Abbreviation Pos := Z.

(** An expression node: its identity and its position. *)
Record Expr : Type := mkExpr { id : positive; ExprPos : Pos }.

Global Instance Expr_eq_dec : EqDecision Expr.
Proof. solve_decision. Defined.

Global Instance Expr_countable : Countable Expr.
Proof.
  refine (inj_countable' (fun e => (id e, ExprPos e)) (fun t => mkExpr t.1 t.2) _).
  by intros [].
Defined.

(** The [Fun] of a call, as the callback tells the cases apart:
    not a selector expression; a selector [X.Sel] that
    [TypesInfo.Selections] does not hold, which is a qualified identifier
    whose [X] names an imported package ([Uses] gives its path); a
    selector with a selection. *)
Inductive FunExpr : Type :=
| NotSelector
| Qualified (path : string) (Sel : string)
| Selected (nv : types.Selection) (Sel : string).

Record CallExpr : Type := mkCall { Fun : FunExpr; Args : list Expr; CallPos : Pos }.

End ast.

Module analysis.

Record Diagnostic : Type := mkDiag { Pos : ast.Pos; Message : string }.

Global Instance Diagnostic_eq_dec : EqDecision Diagnostic.
Proof. solve_decision. Defined.

(** The part of [*analysis.Pass] that is read: [TypesInfo.Types]. The
    reports of a pass are the list a function returns. *)
Record Pass : Type := mkPass { Types : gmap ast.Expr types.TypeAndValue }.

(** [p.TypesInfo.Types[e]], the zero [TypeAndValue] for a missing entry. *)
Definition TypesOf (p : Pass) (e : ast.Expr) : types.TypeAndValue :=
  default (types.mkTV None None) (Types p !! e).

End analysis.

Import analysis.

(** ** Go slices and integers *)

Definition len {A} (l : list A) : Z := Z.of_nat (length l).

(** [l[i]]; [None] is the run-time panic of an index out of range. *)
Definition index {A} (l : list A) (i : Z) : option A :=
  if 0 <=? i then l !! Z.to_nat i else None.

(** [l[lo:]]; [None] is the run-time panic of slice bounds out of range. *)
Definition slice_from {A} (l : list A) (lo : Z) : option (list A) :=
  if (0 <=? lo) && (lo <=? len l) then Some (drop (Z.to_nat lo) l) else None.

(** ** Diagnostic messages: the four [Reportf] formats *)

(* "%d args passed to %s; must be even" *)
Definition msgArity (n : Z) (name : string) : string :=
  pretty n +:+ " args passed to " +:+ name +:+ "; must be even".

(* "arg %d to %s is a whitelisted type; should pass one or none" *)
Definition msgWhitelisted (i : Z) (name : string) : string :=
  "arg " +:+ pretty i +:+ " to " +:+ name +:+ " is a whitelisted type; should pass one or none".

(* "arg %d to %s is constant %s but should be a constant string" *)
Definition msgConstant (i : Z) (name ty : string) : string :=
  "arg " +:+ pretty i +:+ " to " +:+ name +:+ " is constant " +:+ ty
    +:+ " but should be a constant string".

(* "arg %d to %s is expression %s but should be a constant string" *)
Definition msgExpression (i : Z) (name ty : string) : string :=
  "arg " +:+ pretty i +:+ " to " +:+ name +:+ " is expression " +:+ ty
    +:+ " but should be a constant string".

(** ** NewAnalyzer *)

Section Analyzer.

(** The two maps the closures of [NewAnalyzer] capture. *)
Variable offsets : funcOffset.
Variable whitelistedTypes : typeWhitelist.

(** [isWhitelisted]; [None] is the run-time panic of
    [named.Obj().Pkg().Path()] on a named type without a package. The key of
    the map is built, and so the path is read, before the map is looked
    into. *)
Definition isWhitelisted (p : Pass) (e : ast.Expr) : option bool :=
  let typ := TypesOf p e in
  hit ← match types.Typ typ with
        | Some (types.Pointer (types.Named pkg name _)) =>
            path ← types.Path pkg;
            Some (wl_get whitelistedTypes {| wpkg := path; wtyp := name |})
        | _ => Some false
        end;
  if hit : bool then Some true
  else
    hit ← match types.Typ typ with
          | Some (types.Named pkg name _) =>
              path ← types.Path pkg;
              Some (wl_get whitelistedTypes {| wpkg := path; wtyp := name |})
          | _ => Some false
          end;
    if hit : bool then Some true else Some false.

(** The first loop over [c.Args[offset:]]: the index of the first
    whitelisted argument, if there is one; the outer [None] is a panic of
    [isWhitelisted] on the way. *)
Fixpoint firstWhitelisted (p : Pass) (i : Z) (l : list ast.Expr) : option (option Z) :=
  match l with
  | [] => Some None
  | a :: l' =>
      hit ← isWhitelisted p a;
      if hit : bool then Some (Some i) else firstWhitelisted p (i + 1) l'
  end.

(** The body of the second loop, for the argument [a] at index [i]. *)
Definition checkKey (p : Pass) (name : string) (offset : Z) (i : Z) (a : ast.Expr)
    : list Diagnostic :=
  if negb (Z.rem i 2 =? 0) then []
  else
    let typ := TypesOf p a in
    match types.Value typ with
    | Some v => (* constant *)
        if negb (bool_decide (constant.kind v = constant.String))
        then [ {| Pos := ast.ExprPos a;
                  Message := msgConstant (i + offset) name (types.TypeString (types.Typ typ)) |} ]
        else []
    | None =>
        match types.Typ typ with
        | Some t => (* expression *)
            if match types.Underlying t with
               | types.Basic b _ => bool_decide (b = types.String)
               | _ => false
               end
            then []
            else [ {| Pos := ast.ExprPos a;
                      Message := msgExpression (i + offset) name (types.TypeString (types.Typ typ)) |} ]
        | None => []
        end
    end.

Fixpoint checkKeys (p : Pass) (name : string) (offset : Z) (i : Z) (l : list ast.Expr)
    : list Diagnostic :=
  match l with
  | [] => []
  | a :: l' => checkKey p name offset i a ++ checkKeys p name offset (i + 1) l'
  end.

(** [argsCorrect]: the diagnostics reported for the call, in order;
    [None] is a run-time panic: of an index or slice expression out of
    range, or of [isWhitelisted]. [offset] is a Go [int]; for an offset that
    is not negative, as all offsets of the table are, the differences and
    sums below stay in the range of [int]. *)
Definition argsCorrect (p : Pass) (name : string) (offset : Z) (c : ast.CallExpr)
    : option (list Diagnostic) :=
  if len (ast.Args c) <=? offset then Some []
  else
    sole ← (if len (ast.Args c) - offset =? 1
            then a ← index (ast.Args c) offset; isWhitelisted p a
            else Some false);
    if sole : bool then Some []
    else if negb (Z.rem (len (ast.Args c) - offset) 2 =? 0) then
      Some [ {| Pos := ast.CallPos c; Message := msgArity (len (ast.Args c)) name |} ]
    else
      rest ← slice_from (ast.Args c) offset;
      first ← firstWhitelisted p 0 rest;
      match first with
      | Some i =>
          Some [ {| Pos := ast.CallPos c; Message := msgWhitelisted (i + offset) name |} ]
      | None =>
          rest' ← slice_from (ast.Args c) offset;
          Some (checkKeys p name offset 0 rest')
      end.

(** The type assertion to a pointer to [types.Named]: the package and
    the name of the object of a named type. *)
Definition isNamed (t : types.Type_) : option (option string * string) :=
  match t with
  | types.Named pkg name _ => Some (pkg, name)
  | _ => None
  end.

(** The function given to [astutil.Apply], at a call expression: what it
    reports there; [None] is a run-time panic, of [argsCorrect] or of
    [named.Obj().Pkg().Path()] in the selector of the concrete type. *)
Definition visitCall (p : Pass) (c : ast.CallExpr) : option (list Diagnostic) :=
  match ast.Fun c with
  | ast.NotSelector => Some []
  | ast.Qualified path sel => (* package functions *)
      let '(offset, ok) := comma_ok offsets {| pkg := path; typ := ""; fun_ := sel |} in
      if negb ok then Some []
      else argsCorrect p (path +:+ "." +:+ sel) offset c
  | ast.Selected nv sel =>
      match isNamed (types.Recv nv) with
      | None => Some []
      | Some (pkg_, name) =>
          (* try generous interface first *)
          let '(offset, ok) := comma_ok offsets {| pkg := ""; typ := ""; fun_ := sel |} in
          found ← (if negb ok
                   then (* otherwise try concrete type *)
                     path ← types.Path pkg_;
                     Some (comma_ok offsets {| pkg := path; typ := name; fun_ := sel |})
                   else Some (offset, ok));
          let '(offset, ok) := found in
          if negb ok then Some []
          else argsCorrect p (types.SelectionString nv) offset c
      end
  end.

End Analyzer.

(** ** The previous version of the file *)

(** The file as it was before the whitelist ([argsCorrect] a function of
    the package that returns whether it reported nothing, the arity tests in
    the callback). The types, [funcOffset] and the pattern are the same. *)

Module Previous.

(** The body of the loop of [argsCorrect]: the reports for the argument [a]
    at index [i], and [ret] after it. *)
Definition checkKey (p : Pass) (name : string) (offset : Z) (i : Z) (a : ast.Expr)
    (ret : bool) : list Diagnostic * bool :=
  if negb (Z.rem i 2 =? 0) then ([], ret)
  else
    let typ := TypesOf p a in
    match types.Value typ with
    | Some v => (* constant *)
        if negb (bool_decide (constant.kind v = constant.String))
        then ([ {| Pos := ast.ExprPos a;
                   Message := msgConstant (i + offset) name (types.TypeString (types.Typ typ)) |} ],
              false)
        else ([], ret)
    | None =>
        match types.Typ typ with
        | Some t => (* expression *)
            if match types.Underlying t with
               | types.Basic b _ => bool_decide (b = types.String)
               | _ => false
               end
            then ([], ret)
            else ([ {| Pos := ast.ExprPos a;
                       Message := msgExpression (i + offset) name (types.TypeString (types.Typ typ)) |} ],
                  false)
        | None => ([], ret)
        end
    end.

Fixpoint checkKeys (p : Pass) (name : string) (offset : Z) (i : Z) (l : list ast.Expr)
    (ret : bool) : list Diagnostic * bool :=
  match l with
  | [] => ([], ret)
  | a :: l' =>
      let '(ds, ret') := checkKey p name offset i a ret in
      let '(ds', ret'') := checkKeys p name offset (i + 1) l' ret' in
      (ds ++ ds', ret'')
  end.

(** [func argsCorrect(p, name, offset, c) bool]: the reports and the
    result; [None] is a run-time panic. *)
Definition argsCorrect (p : Pass) (name : string) (offset : Z) (c : ast.CallExpr)
    : option (list Diagnostic * bool) :=
  if len (ast.Args c) <=? offset then Some ([], true)
  else
    rest ← slice_from (ast.Args c) offset;
    Some (checkKeys p name offset 0 rest true).

(** The function given to [astutil.Apply], at a call expression. *)
Definition visitCall (offsets : funcOffset) (p : Pass) (c : ast.CallExpr)
    : option (list Diagnostic) :=
  match ast.Fun c with
  | ast.NotSelector => Some []
  | ast.Qualified path sel => (* package functions *)
      let '(offset, ok) := comma_ok offsets {| pkg := path; typ := ""; fun_ := sel |} in
      if negb ok then Some []
      else if negb (Z.rem (len (ast.Args c) - offset) 2 =? 0) then
        Some [ {| Pos := ast.CallPos c;
                  Message := msgArity (len (ast.Args c)) (path +:+ "." +:+ sel) |} ]
      else fst <$> argsCorrect p (path +:+ "." +:+ sel) offset c
  | ast.Selected nv sel =>
      match isNamed (types.Recv nv) with
      | None => Some []
      | Some (pkg_, name) =>
          (* try generous interface first *)
          let '(offset, ok) := comma_ok offsets {| pkg := ""; typ := ""; fun_ := sel |} in
          found ← (if negb ok
                   then (* otherwise try concrete type *)
                     path ← types.Path pkg_;
                     Some (comma_ok offsets {| pkg := path; typ := name; fun_ := sel |})
                   else Some (offset, ok));
          let '(offset, ok) := found in
          if negb ok then Some []
          else if negb (Z.rem (len (ast.Args c)) 2 =? 0) then
            Some [ {| Pos := ast.CallPos c;
                      Message := msgArity (len (ast.Args c)) (types.SelectionString nv) |} ]
          else fst <$> argsCorrect p (types.SelectionString nv) offset c
      end
  end.

End Previous.

(** ** The test-suite of the package, evaluated *)

Module TestAnalysis.

Definition flags : list string :=
  [".Log=0"; "a/b.Y.Z=0"; "a/b.X=1"; "a/b.NewPairs=0"; "a/b.Pairs.AddPairs=0"].

Definition offsets : funcOffset := (funcOffset_SetAll ∅ flags).1.
Definition whitelistedTypes : typeWhitelist := (typeWhitelist_Set ∅ "a/b.Pairs").1.

Definition logger : types.Type_ := types.Named (Some "a") "logger" (types.Predeclared types.Int).
Definition Y : types.Type_ := types.Named (Some "a/b") "Y" (types.Predeclared types.Int).
Definition Pairs : types.Type_ :=
  types.Named (Some "a/b") "Pairs" (types.Other "struct{values []interface{}}").

Definition str (s : string) : types.TypeAndValue :=
  types.mkTV (Some (types.Predeclared types.String)) (Some (constant.mkValue constant.String s)).
Definition int (s : string) : types.TypeAndValue :=
  types.mkTV (Some (types.Predeclared types.Int)) (Some (constant.mkValue constant.Int s)).
Definition var (t : types.Type_) : types.TypeAndValue := types.mkTV (Some t) None.

(** Arguments are numbered from 1 in a call at position 100; argument [i]
    is at position [100 + i]. *)
Fixpoint exprs (i : positive) (n : nat) : list ast.Expr :=
  match n with
  | O => []
  | S n' => ast.mkExpr i (100 + Z.pos i) :: exprs (Pos.succ i) n'
  end.

Definition pass (tvs : list types.TypeAndValue) : Pass :=
  mkPass (list_to_map (zip (exprs 1 (length tvs)) tvs)).

Definition call (f : ast.FunExpr) (tvs : list types.TypeAndValue) : ast.CallExpr :=
  ast.mkCall f (exprs 1 (length tvs)) 100.

Definition check (f : ast.FunExpr) (tvs : list types.TypeAndValue) : option (list Diagnostic) :=
  visitCall offsets whitelistedTypes (pass tvs) (call f tvs).

Definition Log : ast.FunExpr :=
  ast.Selected (types.mkSelection logger "method (a.logger) Log(inputs ...interface{})") "Log".
Definition Z_ : ast.FunExpr :=
  ast.Selected (types.mkSelection Y "method (a/b.Y) Z(inputs ...interface{})") "Z".
Definition X : ast.FunExpr := ast.Qualified "a/b" "X".

(** A constant of the named type [a.MyInt], of kind Int. *)
Definition MyInt : types.Type_ := types.Named (Some "a") "MyInt" (types.Predeclared types.Int).
Definition myint (s : string) : types.TypeAndValue :=
  types.mkTV (Some MyInt) (Some (constant.mkValue constant.Int s)).

(** An argument for which the checker recorded nothing. *)
Definition nothing : types.TypeAndValue := types.mkTV None None.

Definition pairs : types.TypeAndValue := var (types.Pointer Pairs).

(** [b.X("", 1, "v", l, "w")]: two keys that are not strings. *)
Definition two_bad_keys : list types.TypeAndValue :=
  [str ""; int "1"; str "v"; var logger; str "w"].

(** [p.AddPairs] of the test file: the receiver is a pointer. *)
Definition AddPairs : ast.FunExpr :=
  ast.Selected
    (types.mkSelection (types.Pointer Pairs) "method (*a/b.Pairs) AddPairs(i ...interface{})")
    "AddPairs".

(** A variable of the predeclared type [error], and its method. *)
Definition err : types.TypeAndValue := var types.universeError.
Definition ErrorMethod : ast.FunExpr :=
  ast.Selected (types.mkSelection types.universeError "method (error) Error() string") "Error".

(** A variable of type [rune]. *)
Definition rune : types.TypeAndValue := var types.universeRune.

(** Two small rule tables. *)
Definition Log_from_1 : funcOffset := {[ {| pkg := ""; typ := ""; fun_ := "Log" |} := 1 ]}.
Definition X_from_1 : funcOffset := {[ {| pkg := "a/b"; typ := ""; fun_ := "X" |} := 1 ]}.

(** For [TestFuncOffset]: the entries of the map after [Set] on the empty
    map, and the text of the error. *)
Definition set_result (v : string) : list (funcSelector * Z) * option string :=
  (map_to_list (funcOffset_Set ∅ v).1, Error <$> (funcOffset_Set ∅ v).2).

End TestAnalysis.

(** * Properties *)

(** ** Vocabulary of the specification *)

(** The relevant arguments of a call: its arguments without the first
    [offset]. *)
Definition relevant (offset : Z) (c : ast.CallExpr) : list ast.Expr :=
  drop (Z.to_nat offset) (ast.Args c).

(** A type is registered when the whitelist maps it to [true]. *)
Definition registered (w : typeWhitelist) (path name : string) : Prop :=
  w !! {| wpkg := path; wtyp := name |} = Some true.

(** The static type is a registered named type or a pointer to one. *)
Inductive whitelistedType (w : typeWhitelist) : option types.Type_ -> Prop :=
| wl_direct path name u :
    registered w path name ->
    whitelistedType w (Some (types.Named (Some path) name u))
| wl_pointer path name u :
    registered w path name ->
    whitelistedType w (Some (types.Pointer (types.Named (Some path) name u))).

Definition whitelistedArg (w : typeWhitelist) (p : Pass) (a : ast.Expr) : Prop :=
  whitelistedType w (types.Typ (TypesOf p a)).

(** The static type is a named type without a package, as the predeclared
    [error], or a pointer to one. *)
Inductive noPackageType : option types.Type_ -> Prop :=
| np_direct name u :
    noPackageType (Some (types.Named None name u))
| np_pointer name u :
    noPackageType (Some (types.Pointer (types.Named None name u))).

Definition noPackageArg (p : Pass) (a : ast.Expr) : Prop :=
  noPackageType (types.Typ (TypesOf p a)).

(** An argument that the whitelist test passes over: not whitelisted, and
    not of a type without a package. *)
Definition plainArg (w : typeWhitelist) (p : Pass) (a : ast.Expr) : Prop :=
  ~ whitelistedArg w p a /\ ~ noPackageArg p a.

(** The whitelist scan of the arguments [l] is safe: every argument of a
    type without a package comes after a whitelisted one, where the scan
    has stopped. *)
Definition scanSafe (w : typeWhitelist) (p : Pass) (l : list ast.Expr) : Prop :=
  forall i a, l !! i = Some a -> noPackageArg p a ->
    exists j b, (j < i)%nat /\ l !! j = Some b /\ whitelistedArg w p b.

(** The invariant of the rule table: no offset is negative. *)
Definition offsets_nonneg (o : funcOffset) : Prop :=
  map_Forall (fun _ n => 0 <= n) o.

(** The two diagnostics that are reported at the call, with the text the
    specification gives: the number of all arguments of the call in the
    first, the index among all arguments in the second, in decimal. *)
Definition arityDiag (c : ast.CallExpr) (name : string) : Diagnostic :=
  {| Pos := ast.CallPos c;
     Message := pretty (len (ast.Args c)) +:+ " args passed to " +:+ name +:+ "; must be even" |}.

Definition mixingDiag (c : ast.CallExpr) (name : string) (i : Z) : Diagnostic :=
  {| Pos := ast.CallPos c;
     Message := "arg " +:+ pretty i +:+ " to " +:+ name
                  +:+ " is a whitelisted type; should pass one or none" |}.

(** The underlying type is the basic type of kind [String]. *)
Definition stringType (t : types.Type_) : Prop :=
  exists name, types.Underlying t = types.Basic types.String name.

(** The verdict on a key, in the words of the specification: the
    diagnostics for the argument [a], numbered [n] among all arguments, of
    which the checker recorded [tv]. *)
Inductive keyVerdict (name : string) (n : Z) (a : ast.Expr)
  : types.TypeAndValue -> list Diagnostic -> Prop :=
| kv_string_constant ty v :
    constant.kind v = constant.String ->
    keyVerdict name n a (types.mkTV ty (Some v)) []
| kv_other_constant ty v :
    constant.kind v <> constant.String ->
    keyVerdict name n a (types.mkTV ty (Some v))
      [ {| Pos := ast.ExprPos a;
           Message := "arg " +:+ pretty n +:+ " to " +:+ name +:+ " is constant "
                        +:+ types.TypeString ty +:+ " but should be a constant string" |} ]
| kv_string_expression t :
    stringType t ->
    keyVerdict name n a (types.mkTV (Some t) None) []
| kv_other_expression t :
    ~ stringType t ->
    keyVerdict name n a (types.mkTV (Some t) None)
      [ {| Pos := ast.ExprPos a;
           Message := "arg " +:+ pretty n +:+ " to " +:+ name +:+ " is expression "
                        +:+ types.TypeString (Some t) +:+ " but should be a constant string" |} ]
| kv_no_information :
    keyVerdict name n a (types.mkTV None None) [].

(** The form of a whitelist specification: [<pkg>.<type>], where the type
    is not empty and has neither [.] nor [/], and the package has no
    newline. The [.] is then the last one of the specification. *)
Definition whitelist_form (v pkg typ : string) : Prop :=
  v = pkg +:+ "." +:+ typ /\
  forallb (fun c => negb (is_newline c)) (to_bytes pkg) = true /\
  typ <> "" /\
  forallb (none_of ["."; "/"]%char) (to_bytes typ) = true.

(** The optional [.<Type>] of a rule: absent when the type is empty. *)
Definition opt_type_text (typ : string) : string :=
  match typ with
  | "" => ""
  | String _ _ => "." +:+ typ
  end.

(** The form of a rule specification, [[pkg[.type]].<func>=<offset>]: the
    package has no newline, the type neither [.] nor [/], the function is
    not empty and has no [.], the offset is one or more decimal digits. *)
Definition rule_form (v pkg typ fn digits : string) : Prop :=
  v = pkg +:+ opt_type_text typ +:+ "." +:+ fn +:+ "=" +:+ digits /\
  forallb (fun c => negb (is_newline c)) (to_bytes pkg) = true /\
  forallb (none_of ["."; "/"]%char) (to_bytes typ) = true /\
  fn <> "" /\ forallb (none_of ["."%char]) (to_bytes fn) = true /\
  digits <> "" /\ forallb is_digit (to_bytes digits) = true.

(** The reading of a rule with the shortest package: the segment before
    the function is the type whenever the form allows it. *)
Definition rule_reading (v pkg typ fn digits : string) : Prop :=
  rule_form v pkg typ fn digits /\
  (typ = "" -> forall pkg' typ' fn' digits',
     rule_form v pkg' typ' fn' digits' -> typ' = "").

(** The number that decimal digits write. *)
Definition decimal (digits : string) : Z :=
  fold_left (fun acc c => acc * 10 + (Z.of_nat (nat_of_ascii c) - 48)) (to_bytes digits) 0.

(** A selector as [funcOffset.Set] can store it: no newline in the
    package, neither [.] nor [/] in the type, a function that is not empty
    and has no [.]. *)
Definition selector_wf (s : funcSelector) : Prop :=
  forallb (fun c => negb (is_newline c)) (to_bytes (pkg s)) = true /\
  forallb (none_of ["."; "/"]%char) (to_bytes (typ s)) = true /\
  fun_ s <> "" /\
  forallb (none_of ["."%char]) (to_bytes (fun_ s)) = true.

(** The invariant of the rule table. *)
Definition table_inv (o : funcOffset) : Prop :=
  map_Forall (fun s n => selector_wf s /\ 0 <= n <= strconv.maxInt) o.

(** The invariant of the whitelist: it maps to [true] only. *)
Definition whitelist_inv (w : typeWhitelist) : Prop :=
  map_Forall (fun _ b => b = true) w.

(** A key that the validator accepts: a constant of kind String, an
    expression that is no constant and whose underlying type is [string],
    or an argument of which the checker recorded nothing. *)
Inductive acceptableKey : types.TypeAndValue -> Prop :=
| ak_string_constant ty v :
    constant.kind v = constant.String -> acceptableKey (types.mkTV ty (Some v))
| ak_string_expression t :
    stringType t ->
    acceptableKey (types.mkTV (Some t) None)
| ak_no_information : acceptableKey (types.mkTV None None).

(** A package path of which [funcOffset.Set] reads no part as a type: no
    segment after a [.] of it is at once not empty, without [.] and
    without [/]. *)
Definition no_type_segment (path : string) : Prop :=
  forall p1 seg, path = p1 +:+ "." +:+ seg ->
    forallb (none_of ["."; "/"]%char) (to_bytes seg) = true -> seg = "".

(** ** Vocabulary for the two patterns *)

(** The loops over a character class [f], by recursion on the input:
    [c*?], [c*] and [c+]. *)
Fixpoint lazy_class (f : ascii -> bool) (pos : nat) (s : bytes) (cs : caps) (k : cont)
    : option caps :=
  match k pos s cs with
  | Some res => Some res
  | None =>
      match s with
      | c :: s' => if f c then lazy_class f (S pos) s' cs k else None
      | [] => None
      end
  end.

Fixpoint greedy_class (f : ascii -> bool) (pos : nat) (s : bytes) (cs : caps) (k : cont)
    : option caps :=
  match s with
  | c :: s' =>
      if f c then
        match greedy_class f (S pos) s' cs k with
        | Some res => Some res
        | None => k pos s cs
        end
      else k pos s cs
  | [] => k pos s cs
  end.

Definition plus_class (f : ascii -> bool) (pos : nat) (s : bytes) (cs : caps) (k : cont)
    : option caps :=
  match s with
  | c :: s' => if f c then greedy_class f (S pos) s' cs k else None
  | [] => None
  end.

Definition not_newline (c : ascii) : bool := negb (is_newline c).

(* \.([^\./]+) *)
Definition typePart : regex :=
  Cat (Lit ".") (Group 2 (Plus (NoneOf ["."; "/"]%char))).

(* \.([^\.]+)=(\d+)$ *)
Definition funcTail : regex :=
  Cat (Lit ".")
   (Cat (Group 3 (Plus (NoneOf ["."%char])))
   (Cat (Lit "=")
   (Cat (Group 4 (Plus Digit))
        Eol))).

(** The continuation of the search at the start of the input. *)
Definition finish : cont := fun pos' _ cs => Some (<[O := (O, pos')]> cs).

(** The parts of a whitelist specification, as bytes, and the submatches
    that go with them. *)
Definition whitelist_parts (s P T : bytes) : Prop :=
  s = P ++ "."%char :: T /\
  forallb not_newline P = true /\
  T <> [] /\ forallb (none_of ["."; "/"]%char) T = true.

Definition whitelist_caps (P T : bytes) : caps :=
  <[O := (O, S (length P) + length T)%nat]>
    (<[2%nat := (S (length P), S (length P) + length T)%nat]>
       (<[1%nat := (O, length P)]> ∅)).

(** The parts of the end of a rule, [.<func>=<offset>]. *)
Definition tail_parts (s F D : bytes) : Prop :=
  s = "."%char :: F ++ "="%char :: D /\
  F <> [] /\ forallb (none_of ["."%char]) F = true /\
  D <> [] /\ forallb is_digit D = true.

Definition tail_caps (pos : nat) (F D : bytes) (cs : caps) : caps :=
  <[4%nat := (S (S pos + length F), S (S pos + length F) + length D)%nat]>
    (<[3%nat := (S pos, S pos + length F)%nat]> cs).

Definition opt_type (T : bytes) : bytes :=
  match T with [] => [] | _ :: _ => "."%char :: T end.

(** The parts of a rule, as bytes. *)
Definition rule_parts (s P T F D : bytes) : Prop :=
  s = P ++ opt_type T ++ "."%char :: F ++ "="%char :: D /\
  forallb not_newline P = true /\
  forallb (none_of ["."; "/"]%char) T = true /\
  F <> [] /\ forallb (none_of ["."%char]) F = true /\
  D <> [] /\ forallb is_digit D = true.

(** The parts the matcher chooses: a type whenever there can be one. *)
Definition rule_parse (s P T F D : bytes) : Prop :=
  rule_parts s P T F D /\
  (T = [] -> forall P' T' F' D', rule_parts s P' T' F' D' -> T' = []).

Definition type_caps (P T : bytes) (cs : caps) : caps :=
  match T with
  | [] => cs
  | _ :: _ => <[2%nat := (S (length P), S (length P) + length T)%nat]> cs
  end.

Definition rule_caps (P T F D : bytes) : caps :=
  <[O := (O, S (S (length (P ++ opt_type T)) + length F) + length D)%nat]>
    (tail_caps (length (P ++ opt_type T)) F D
       (type_caps P T (<[1%nat := (O, length P)]> ∅))).

(** Case analysis on the scrutinee of the [match] on the left of [H]. *)
Ltac case_scrutinee H E :=
  match type of H with
  | match ?x with _ => _ end = _ => destruct x eqn:E
  end.

(** ** Slices and parity *)

Lemma len_nonneg {A} (l : list A) : 0 <= len l.
Proof. unfold len. lia. Qed.

Lemma len_relevant offset c :
  0 <= offset -> offset <= len (ast.Args c) ->
  len (relevant offset c) = len (ast.Args c) - offset.
Proof. intros H0 H1. unfold relevant, len in *. rewrite length_drop. lia. Qed.

Lemma relevant_nil offset c :
  len (ast.Args c) <= offset -> relevant offset c = [].
Proof. intros H. unfold relevant, len in *. apply drop_ge. lia. Qed.

Lemma slice_from_relevant offset c :
  0 <= offset -> offset <= len (ast.Args c) ->
  slice_from (ast.Args c) offset = Some (relevant offset c).
Proof.
  intros H0 H1. unfold slice_from.
  destruct (Z.leb_spec 0 offset); [|lia].
  destruct (Z.leb_spec offset (len (ast.Args c))); [|lia]. done.
Qed.

Lemma index_relevant offset c :
  0 <= offset -> index (ast.Args c) offset = head (relevant offset c).
Proof.
  intros H0. unfold index, relevant.
  destruct (Z.leb_spec 0 offset); [|lia].
  by rewrite head_lookup, lookup_drop, Nat.add_0_r.
Qed.

Lemma Zodd_of_nat (n : nat) : Z.odd (Z.of_nat n) = Nat.odd n.
Proof.
  induction n as [|n IH]; [done|].
  by rewrite Nat2Z.inj_succ, Z.odd_succ, Nat.odd_succ, <- Z.negb_odd, IH, Nat.negb_odd.
Qed.

(** Go's [%] is the truncated remainder. *)
Lemma rem2_odd_nat (n : nat) : negb (Z.rem (Z.of_nat n) 2 =? 0) = Nat.odd n.
Proof.
  rewrite Z.rem_mod_nonneg, Zmod_odd, Zodd_of_nat by lia.
  by destruct (Nat.odd n).
Qed.

Lemma rem2_odd {A} (l : list A) : negb (Z.rem (len l) 2 =? 0) = Nat.odd (length l).
Proof. apply rem2_odd_nat. Qed.

(** ** The closures in normal form *)

Lemma wl_get_registered w path name :
  wl_get w {| wpkg := path; wtyp := name |} = true <-> registered w path name.
Proof.
  unfold wl_get, registered.
  destruct (w !! _) as [[]|]; simpl; split; congruence.
Qed.

(** The three results of [isWhitelisted]. *)
Lemma isWhitelisted_iff w p a :
  isWhitelisted w p a = Some true <-> whitelistedArg w p a.
Proof.
  unfold isWhitelisted, whitelistedArg.
  destruct (types.Typ (TypesOf p a)) as [t|]; [|split; [done|inversion 1]].
  split.
  - intros H. destruct t as [k n|[path|] name u|e| | |]; simpl in H; try done.
    + destruct (wl_get _ _) eqn:E; [|done].
      apply wl_direct. by apply wl_get_registered.
    + destruct e as [|[path|] name u| | | |]; simpl in H; try done.
      destruct (wl_get _ _) eqn:E; [|done].
      apply wl_pointer. by apply wl_get_registered.
  - inversion 1 as [path name u Hr|path name u Hr]; subst;
      apply wl_get_registered in Hr; simpl; by rewrite Hr.
Qed.

Lemma isWhitelisted_panics w p a :
  isWhitelisted w p a = None <-> noPackageArg p a.
Proof.
  unfold isWhitelisted, noPackageArg.
  destruct (types.Typ (TypesOf p a)) as [t|]; [|split; [done|inversion 1]].
  split.
  - intros H. destruct t as [k n|[path|] name u|e| | |]; simpl in H; try done.
    + by destruct (wl_get _ _).
    + constructor.
    + destruct e as [|[path|] name u| | | |]; simpl in H; try done.
      * by destruct (wl_get _ _).
      * constructor.
  - by inversion 1.
Qed.

Lemma isWhitelisted_false w p a :
  isWhitelisted w p a = Some false <-> plainArg w p a.
Proof.
  unfold plainArg. rewrite <- isWhitelisted_iff, <- (isWhitelisted_panics w).
  destruct (isWhitelisted w p a) as [[]|]; split; intros H;
    first [ done | split; intros E; discriminate E
          | exfalso; by apply (proj1 H) | exfalso; by apply (proj2 H) ].
Qed.

Lemma whitelistedArg_has_package w p a : whitelistedArg w p a -> ~ noPackageArg p a.
Proof.
  rewrite <- isWhitelisted_iff, <- (isWhitelisted_panics w). congruence.
Qed.

(** The call with at least one relevant argument: the three tests of
    [argsCorrect] in terms of the relevant arguments. No slice or index
    expression panics for an offset that is not negative. *)
Lemma argsCorrect_relevant w p name offset c :
  0 <= offset -> offset < len (ast.Args c) ->
  argsCorrect w p name offset c =
    sole ← match relevant offset c with [a] => isWhitelisted w p a | _ => Some false end;
    if sole : bool then Some []
    else if Nat.odd (length (relevant offset c)) then Some [arityDiag c name]
    else first ← firstWhitelisted w p 0 (relevant offset c);
         match first with
         | Some i => Some [mixingDiag c name (i + offset)]
         | None => Some (checkKeys p name offset 0 (relevant offset c))
         end.
Proof.
  intros H0 Hlt. unfold argsCorrect.
  destruct (Z.leb_spec (len (ast.Args c)) offset) as [|_]; [lia|].
  pose proof (len_relevant offset c H0 ltac:(lia)) as Hlen.
  rewrite slice_from_relevant, index_relevant by lia.
  rewrite <- Hlen, rem2_odd.
  destruct (relevant offset c) as [|a [|b l]] eqn:E.
  - unfold len in Hlen, Hlt; simpl in Hlen. lia.
  - simpl. destruct (isWhitelisted w p a) as [[]|]; done.
  - replace (len (a :: b :: l) =? 1) with false; [done|].
    unfold len; simpl length. symmetry. apply Z.eqb_neq. lia.
Qed.

(** ** The two loops *)

Lemma firstWhitelisted_None w p i l :
  firstWhitelisted w p i l = Some None <-> Forall (plainArg w p) l.
Proof.
  revert i. induction l as [|a l IH]; intros i; simpl.
  - split; [constructor|done].
  - destruct (isWhitelisted w p a) as [[]|] eqn:E; simpl.
    + split; [done|]. inversion 1 as [|? ? Ha]; subst.
      apply isWhitelisted_false in Ha. congruence.
    + rewrite IH. apply isWhitelisted_false in E.
      split; [by constructor|by inversion 1].
    + split; [done|]. inversion 1 as [|? ? Ha]; subst.
      apply isWhitelisted_false in Ha. congruence.
Qed.

(** The first loop stops at the first whitelisted argument. *)
Lemma firstWhitelisted_Some w p i l j :
  firstWhitelisted w p i l = Some (Some j) <->
  exists l1 a l2, l = l1 ++ a :: l2 /\ j = i + len l1 /\
    Forall (plainArg w p) l1 /\ whitelistedArg w p a.
Proof.
  revert i. induction l as [|a l IH]; intros i; simpl.
  - split; [done|]. intros (l1 & a & l2 & E & _). by destruct l1.
  - destruct (isWhitelisted w p a) as [[]|] eqn:E; simpl.
    + apply isWhitelisted_iff in E. split.
      * intros [= <-]. exists [], a, l. unfold len; simpl.
        repeat split; [lia|constructor|done].
      * intros (l1 & a' & l2 & El & -> & Hall & Ha).
        destruct l1 as [|b l1]; simpl in El; injection El as <- ->.
        -- unfold len; simpl. do 2 f_equal. lia.
        -- inversion Hall as [|? ? [Hb _]]; subst. done.
    + apply isWhitelisted_false in E. rewrite IH. split.
      * intros (l1 & a' & l2 & -> & -> & Hall & Ha).
        exists (a :: l1), a', l2. unfold len; simpl length.
        repeat split; [lia|by constructor|done].
      * intros (l1 & a' & l2 & El & -> & Hall & Ha).
        destruct l1 as [|b l1]; simpl in El; injection El as <- ->.
        -- by destruct E.
        -- inversion Hall; subst.
           exists l1, a', l2. unfold len; simpl length. repeat split; [lia|done..].
    + split; [done|]. intros (l1 & a' & l2 & El & -> & Hall & Ha).
      destruct l1 as [|b l1]; simpl in El; injection El as <- ->.
      * apply isWhitelisted_iff in Ha. congruence.
      * inversion Hall as [|? ? Hb]; subst. apply isWhitelisted_false in Hb. congruence.
Qed.

(** The first loop panics at an argument of a type without a package
    that no whitelisted argument precedes. *)
Lemma firstWhitelisted_panics w p i l :
  firstWhitelisted w p i l = None <->
  exists l1 a l2, l = l1 ++ a :: l2 /\ Forall (plainArg w p) l1 /\ noPackageArg p a.
Proof.
  revert i. induction l as [|a l IH]; intros i; simpl.
  - split; [done|]. intros (l1 & a & l2 & E & _). by destruct l1.
  - destruct (isWhitelisted w p a) as [[]|] eqn:E; simpl.
    + split; [done|]. intros (l1 & a' & l2 & El & Hall & Ha).
      destruct l1 as [|b l1]; simpl in El; injection El as <- ->.
      * apply (isWhitelisted_panics w) in Ha. congruence.
      * inversion Hall as [|? ? Hb]; subst. apply isWhitelisted_false in Hb. congruence.
    + apply isWhitelisted_false in E. rewrite IH. split.
      * intros (l1 & a' & l2 & -> & Hall & Ha).
        exists (a :: l1), a', l2. repeat split; [by constructor|done].
      * intros (l1 & a' & l2 & El & Hall & Ha).
        destruct l1 as [|b l1]; simpl in El; injection El as <- ->.
        -- by destruct E.
        -- inversion Hall; subst. by exists l1, a', l2.
    + apply (isWhitelisted_panics w) in E. split; [|done]. intros _.
      exists [], a, l. by repeat split.
Qed.

Lemma checkKeys_app p name offset i l1 l2 :
  checkKeys p name offset i (l1 ++ l2) =
  checkKeys p name offset i l1 ++ checkKeys p name offset (i + len l1) l2.
Proof.
  revert i. induction l1 as [|a l1 IH]; intros i; simpl.
  - unfold len; simpl. by rewrite Z.add_0_r.
  - rewrite IH, <- app_assoc. do 3 f_equal. unfold len; simpl length. lia.
Qed.

(** The second loop is a concatenation over the positions. *)
Lemma checkKeys_imap p name offset i l :
  checkKeys p name offset i l =
  mjoin (imap (fun j a => checkKey p name offset (i + Z.of_nat j) a) l).
Proof.
  revert i. induction l as [|a l IH]; intros i; simpl; [done|].
  rewrite Z.add_0_r. f_equal. rewrite IH. f_equal.
  apply imap_ext. intros j b _. simpl. f_equal. lia.
Qed.

Lemma relevant_nonempty_lt offset c :
  relevant offset c <> [] -> offset < len (ast.Args c).
Proof.
  intros Hne. destruct (Z.lt_ge_cases offset (len (ast.Args c))) as [|Hge]; [done|].
  by rewrite relevant_nil in Hne.
Qed.

Lemma odd_nonempty {A} (l : list A) : Nat.odd (length l) = true -> l <> [].
Proof. by destruct l. Qed.

Lemma Exists_nonempty {A} (P : A -> Prop) (l : list A) : Exists P l -> l <> [].
Proof. by destruct 1. Qed.

(** Every list splits at its first element that is not plain. *)
Lemma first_not_plain w p l :
  Forall (plainArg w p) l \/
  exists l1 a l2, l = l1 ++ a :: l2 /\ Forall (plainArg w p) l1 /\
    (whitelistedArg w p a \/ noPackageArg p a).
Proof.
  induction l as [|a l IH]; [by left|].
  destruct (isWhitelisted w p a) as [[]|] eqn:E.
  - right. exists [], a, l. split; [done|]. split; [constructor|].
    left. by apply isWhitelisted_iff.
  - apply isWhitelisted_false in E. destruct IH as [IH|(l1 & b & l2 & -> & Hall & Hb)].
    + left. by constructor.
    + right. exists (a :: l1), b, l2. split; [done|]. split; [by constructor|done].
  - right. exists [], a, l. split; [done|]. split; [constructor|].
    right. by apply (isWhitelisted_panics w).
Qed.

(** A call with an even, positive number of relevant arguments, one of
    them whitelisted after plain ones: the first loop reports it and
    returns. *)
Lemma argsCorrect_mixing w p name offset c l1 a l2 :
  0 <= offset ->
  relevant offset c = l1 ++ a :: l2 ->
  Nat.odd (length (relevant offset c)) = false ->
  Forall (plainArg w p) l1 ->
  whitelistedArg w p a ->
  argsCorrect w p name offset c = Some [mixingDiag c name (len l1 + offset)].
Proof.
  intros H0 E Hodd Hall Ha.
  rewrite argsCorrect_relevant; [|done|apply relevant_nonempty_lt; rewrite E; by destruct l1].
  rewrite Hodd.
  assert (firstWhitelisted w p 0 (relevant offset c) = Some (Some (len l1))) as ->.
  { apply firstWhitelisted_Some. exists l1, a, l2. split; [done|]. split; [lia|done]. }
  rewrite E in *. destruct l1 as [|b [|b' l1]], l2; try done.
Qed.

(** The same call with an argument of a type without a package after
    plain ones: the first loop panics. *)
Lemma argsCorrect_scan_panics w p name offset c l1 a l2 :
  0 <= offset ->
  relevant offset c = l1 ++ a :: l2 ->
  Nat.odd (length (relevant offset c)) = false ->
  Forall (plainArg w p) l1 ->
  noPackageArg p a ->
  argsCorrect w p name offset c = None.
Proof.
  intros H0 E Hodd Hall Ha.
  rewrite argsCorrect_relevant; [|done|apply relevant_nonempty_lt; rewrite E; by destruct l1].
  rewrite Hodd.
  assert (firstWhitelisted w p 0 (relevant offset c) = None) as ->.
  { apply firstWhitelisted_panics. by exists l1, a, l2. }
  rewrite E in *. destruct l1 as [|b [|b' l1]], l2; try done.
Qed.

(** A call with an even, positive number of relevant arguments, all of
    them plain, reaches the second loop. *)
Lemma argsCorrect_keys w p name offset c :
  0 <= offset ->
  relevant offset c <> [] ->
  Nat.odd (length (relevant offset c)) = false ->
  Forall (plainArg w p) (relevant offset c) ->
  argsCorrect w p name offset c = Some (checkKeys p name offset 0 (relevant offset c)).
Proof.
  intros H0 Hne Hodd Hall.
  rewrite argsCorrect_relevant; [|done|by apply relevant_nonempty_lt].
  rewrite Hodd. apply firstWhitelisted_None with (i := 0) in Hall. rewrite Hall.
  destruct (relevant offset c) as [|a [|b l]]; done.
Qed.

(** ** The loops over a character class *)

Section ClassLoops.
Local Open Scope nat_scope.

Variable f : ascii -> bool.

Lemma lazy_loop_class fuel pos s cs k :
  length s <= fuel ->
  lazy_loop (one_char f) fuel pos s cs k = lazy_class f pos s cs k.
Proof.
  revert pos s. induction fuel as [|fuel IH]; intros pos s Hlen.
  - destruct s; [|simpl in Hlen; lia]. simpl. by destruct (k pos [] cs).
  - destruct s as [|c s]; simpl; destruct (k pos _ cs); try done.
    destruct (f c); [|done].
    destruct (Nat.ltb_spec (length s) (S (length s))); [|lia].
    apply IH. simpl in Hlen. lia.
Qed.

Lemma greedy_loop_class fuel pos s cs k :
  length s <= fuel ->
  greedy_loop (one_char f) fuel pos s cs k = greedy_class f pos s cs k.
Proof.
  revert pos s. induction fuel as [|fuel IH]; intros pos s Hlen.
  - destruct s; [|simpl in Hlen; lia]. done.
  - destruct s as [|c s]; simpl; [done|].
    destruct (f c); [|done].
    destruct (Nat.ltb_spec (length s) (S (length s))); [|lia].
    rewrite IH; [done|]. simpl in Hlen. lia.
Qed.

(** The lazy loop stops at the shortest prefix after which the
    continuation succeeds. *)
Lemma lazy_class_Some pos s cs k res :
  lazy_class f pos s cs k = Some res ->
  exists p t, s = p ++ t /\ forallb f p = true /\
    k (pos + length p) t cs = Some res /\
    forall p' t', s = p' ++ t' -> length p' < length p ->
      k (pos + length p') t' cs = None.
Proof.
  revert pos. induction s as [|c s IH]; intros pos; simpl.
  - destruct (k pos [] cs) eqn:E; [|done]. intros [= <-].
    exists [], []. rewrite Nat.add_0_r. repeat split; try done.
    simpl. lia.
  - destruct (k pos (c :: s) cs) eqn:E.
    + intros [= <-]. exists [], (c :: s). rewrite Nat.add_0_r.
      repeat split; try done. simpl. lia.
    + destruct (f c) eqn:Ec; [|done]. intros H.
      destruct (IH _ H) as (p & t & -> & Hp & Hk & Hmin).
      exists (c :: p), t. simpl. rewrite Ec, Hp.
      replace (pos + S (length p)) with (S pos + length p) by lia.
      repeat split; try done.
      intros [|c' p'] t' E' Hlt; simpl in *.
      * subst t'. by rewrite Nat.add_0_r.
      * injection E' as -> E'.
        replace (pos + S (length p')) with (S pos + length p') by lia.
        apply Hmin; [done|lia].
Qed.

Lemma lazy_class_None pos s cs k :
  lazy_class f pos s cs k = None ->
  forall p t, s = p ++ t -> forallb f p = true -> k (pos + length p) t cs = None.
Proof.
  revert pos. induction s as [|c s IH]; intros pos; simpl.
  - destruct (k pos [] cs) eqn:E; [done|]. intros _ p t E'.
    symmetry in E'. apply app_eq_nil in E' as [-> ->]. by rewrite Nat.add_0_r.
  - destruct (k pos (c :: s) cs) eqn:E; [done|].
    intros H [|c' p] t E' Hp; simpl in *.
    + subst t. by rewrite Nat.add_0_r.
    + injection E' as <- ->. apply andb_true_iff in Hp as [Hc Hp].
      rewrite Hc in H.
      replace (pos + S (length p)) with (S pos + length p) by lia.
      by apply IH.
Qed.

Lemma greedy_class_Some pos s cs k res :
  greedy_class f pos s cs k = Some res ->
  exists p t, s = p ++ t /\ forallb f p = true /\ k (pos + length p) t cs = Some res.
Proof.
  revert pos. induction s as [|c s IH]; intros pos; simpl.
  - intros H. exists [], []. by rewrite Nat.add_0_r.
  - assert (k pos (c :: s) cs = Some res ->
            exists p t, c :: s = p ++ t /\ forallb f p = true /\
                        k (pos + length p) t cs = Some res) as Hhere.
    { intros H. exists [], (c :: s). by rewrite Nat.add_0_r. }
    destruct (f c) eqn:Ec; [|done].
    destruct (greedy_class f (S pos) s cs k) eqn:E; [|done].
    intros [= <-]. destruct (IH _ E) as (p & t & -> & Hp & Hk).
    exists (c :: p), t. simpl. rewrite Ec, Hp.
    by replace (pos + S (length p)) with (S pos + length p) by lia.
Qed.

Lemma greedy_class_None pos s cs k :
  greedy_class f pos s cs k = None ->
  forall p t, s = p ++ t -> forallb f p = true -> k (pos + length p) t cs = None.
Proof.
  revert pos. induction s as [|c s IH]; intros pos; simpl.
  - intros H p t E'. symmetry in E'. apply app_eq_nil in E' as [-> ->].
    by rewrite Nat.add_0_r.
  - intros H [|c' p] t E' Hp; simpl in *.
    + subst t. rewrite Nat.add_0_r.
      destruct (f c); [|done]. by destruct (greedy_class f (S pos) s cs k).
    + injection E' as <- ->. apply andb_true_iff in Hp as [Hc Hp].
      rewrite Hc in H.
      destruct (greedy_class f (S pos) (p ++ t) cs k) eqn:E; [done|].
      replace (pos + S (length p)) with (S pos + length p) by lia.
      by eapply IH.
Qed.

Lemma plus_class_Some pos s cs k res :
  plus_class f pos s cs k = Some res ->
  exists p t, s = p ++ t /\ p <> [] /\ forallb f p = true /\
    k (pos + length p) t cs = Some res.
Proof.
  unfold plus_class. destruct s as [|c s]; [done|].
  destruct (f c) eqn:Ec; [|done]. intros H.
  destruct (greedy_class_Some _ _ _ _ _ H) as (p & t & -> & Hp & Hk).
  exists (c :: p), t. simpl. rewrite Ec, Hp.
  by replace (pos + S (length p)) with (S pos + length p) by lia.
Qed.

Lemma plus_class_None pos s cs k :
  plus_class f pos s cs k = None ->
  forall p t, s = p ++ t -> p <> [] -> forallb f p = true ->
    k (pos + length p) t cs = None.
Proof.
  unfold plus_class. intros H p t E Hne Hp. subst s.
  destruct p as [|c p]; [done|]. simpl in *.
  apply andb_true_iff in Hp as [Hc Hp]. rewrite Hc in H.
  replace (pos + S (length p)) with (S pos + length p) by lia.
  by eapply greedy_class_None.
Qed.

(** [run] on the three loops over a class. *)
Lemma run_plus_class pos s cs k :
  one_char f pos s cs (fun pos' s' cs' =>
    greedy_loop (one_char f) (length s') pos' s' cs' k) = plus_class f pos s cs k.
Proof.
  destruct s as [|c s]; simpl; [done|].
  destruct (f c); [|done]. by apply greedy_loop_class.
Qed.

End ClassLoops.

(** ** The patterns of the package, piece by piece *)

Section Patterns.
Local Open Scope nat_scope.

Lemma Lit_eqb (c c' : ascii) : Ascii.eqb c c' = true <-> c' = c.
Proof. rewrite Ascii.eqb_eq. split; congruence. Qed.

Lemma run_typePart_Some pos s cs k res :
  run typePart pos s cs k = Some res ->
  exists T t, s = "."%char :: T ++ t /\ T <> [] /\
    forallb (none_of ["."; "/"]%char) T = true /\
    k (S pos + length T) t (<[2 := (S pos, S pos + length T)]> cs) = Some res.
Proof.
  destruct s as [|c s]; [done|]. cbn [run typePart one_char].
  destruct (Ascii.eqb "." c) eqn:Ec; [|done]. apply Lit_eqb in Ec as ->.
  rewrite run_plus_class. intros H.
  apply plus_class_Some in H as (T & t & -> & HT & Hc & Hk).
  by exists T, t.
Qed.

Lemma run_typePart_None pos s cs k :
  run typePart pos s cs k = None ->
  forall T t, s = "."%char :: T ++ t -> T <> [] ->
    forallb (none_of ["."; "/"]%char) T = true ->
    k (S pos + length T) t (<[2 := (S pos, S pos + length T)]> cs) = None.
Proof.
  intros H T t -> HT Hc. cbn [run typePart one_char] in H.
  rewrite Ascii.eqb_refl, run_plus_class in H.
  by apply (plus_class_None _ _ _ _ _ H T t).
Qed.

(** Nothing matches after the start of the input: both patterns begin
    with [^]. *)
Lemma search_Bol r pos s : search (Cat Bol r) (S pos) s = None.
Proof. revert pos. induction s as [|c s IH]; intros pos; simpl; [done|apply IH]. Qed.

Lemma search_anchored r s :
  search (Cat Bol r) 0 s =
  run r 0 s ∅ (fun pos' _ cs => Some (<[0 := (0, pos')]> cs)).
Proof.
  destruct s as [|c s]; cbn [search run Nat.eqb];
    destruct (run r 0 _ ∅ _); try done.
  apply search_Bol.
Qed.

Lemma forallb_not_in (f : ascii -> bool) (x : ascii) (l : bytes) :
  forallb f l = true -> f x = false -> x ∉ l.
Proof.
  intros Hl Hx Hin. rewrite forallb_forall in Hl.
  apply list_elem_of_In, Hl in Hin. congruence.
Qed.

(** A separator that does not occur after it splits a text in one way. *)
Lemma split_at_last (x : ascii) (l1 r1 l2 r2 : bytes) :
  l1 ++ x :: r1 = l2 ++ x :: r2 -> x ∉ r1 -> x ∉ r2 -> l1 = l2 /\ r1 = r2.
Proof.
  revert l2. induction l1 as [|a l1 IH]; intros [|b l2] E H1 H2; simpl in E.
  - by injection E.
  - injection E as -> ->. destruct H1. apply elem_of_app. right. left.
  - injection E as -> <-. destruct H2. apply elem_of_app. right. left.
  - injection E as -> E. destruct (IH _ E H1 H2) as [-> ->]. done.
Qed.

(** *** The whitelist pattern *)

Lemma whitelist_unfold s :
  search typeWhitelistMatcher 0 s =
  lazy_class not_newline 0 s ∅ (fun pos' s' cs' =>
    run typePart pos' s' (<[1 := (0, pos')]> cs') (fun p2 s2 c2 =>
      match s2 with [] => Some (<[0 := (0, p2)]> c2) | _ :: _ => None end)).
Proof.
  unfold typeWhitelistMatcher. rewrite search_anchored.
  rewrite <- (lazy_loop_class not_newline (length s)) by done. reflexivity.
Qed.

Lemma whitelist_parts_unique s P T P' T' :
  whitelist_parts s P T -> whitelist_parts s P' T' -> P = P' /\ T = T'.
Proof.
  intros (-> & _ & _ & HT) (E & _ & _ & HT').
  apply (split_at_last _ _ _ _ _ E); by eapply forallb_not_in.
Qed.

Lemma search_whitelist_Some s res :
  search typeWhitelistMatcher 0 s = Some res ->
  exists P T, whitelist_parts s P T /\ res = whitelist_caps P T.
Proof.
  rewrite whitelist_unfold. intros H.
  apply lazy_class_Some in H as (P & t & -> & HP & H & _).
  apply run_typePart_Some in H as (T & t2 & -> & HT & Hc & H).
  destruct t2; [|done]. injection H as <-.
  exists P, T. rewrite app_nil_r. by repeat split.
Qed.

Lemma search_whitelist_None s :
  search typeWhitelistMatcher 0 s = None -> forall P T, ~ whitelist_parts s P T.
Proof.
  rewrite whitelist_unfold. intros H P T (-> & HP & HT & Hc).
  pose proof (lazy_class_None _ _ _ _ _ H P ("."%char :: T) eq_refl HP) as H1.
  cbv beta in H1.
  pose proof (run_typePart_None _ _ _ _ H1 T [] ltac:(by rewrite app_nil_r) HT Hc) as H2.
  done.
Qed.

End Patterns.

(** *** The rule pattern *)

Section RulePattern.
Local Open Scope nat_scope.

Lemma run_funcTail_Some pos s cs k res :
  run funcTail pos s cs k = Some res ->
  exists F D, tail_parts s F D /\
    k (S (S pos + length F) + length D) [] (tail_caps pos F D cs) = Some res.
Proof.
  destruct s as [|c s]; [done|]. cbn [run funcTail one_char].
  destruct (Ascii.eqb "." c) eqn:Ec; [|done]. apply Lit_eqb in Ec as ->.
  rewrite run_plus_class. intros H.
  apply plus_class_Some in H as (F & t & -> & HF & Hc & H).
  destruct t as [|c t]; [done|]. cbn [one_char] in H.
  destruct (Ascii.eqb "=" c) eqn:Ec; [|done]. apply Lit_eqb in Ec as ->.
  rewrite run_plus_class in H.
  apply plus_class_Some in H as (D & t2 & -> & HD & Hd & H).
  destruct t2; [|done]. rewrite app_nil_r.
  exists F, D. by repeat split.
Qed.

Lemma run_funcTail_None pos s cs k :
  run funcTail pos s cs k = None ->
  forall F D, tail_parts s F D ->
    k (S (S pos + length F) + length D) [] (tail_caps pos F D cs) = None.
Proof.
  intros H F D (-> & HF & Hc & HD & Hd). cbn [run funcTail one_char] in H.
  rewrite Ascii.eqb_refl, run_plus_class in H.
  pose proof (plus_class_None _ _ _ _ _ H F ("="%char :: D) eq_refl HF Hc) as H1.
  cbn [one_char] in H1. rewrite Ascii.eqb_refl, run_plus_class in H1.
  pose proof (plus_class_None _ _ _ _ _ H1 D [] ltac:(by rewrite app_nil_r) HD Hd) as H2.
  done.
Qed.

Lemma tail_parts_unique s F D F' D' :
  tail_parts s F D -> tail_parts s F' D' -> F = F' /\ D = D'.
Proof.
  intros (-> & _ & _ & _ & Hd) (E & _ & _ & _ & Hd').
  injection E as E.
  apply (split_at_last _ _ _ _ _ E); by eapply forallb_not_in.
Qed.

Lemma funcOffset_unfold s :
  search funcOffsetMatcher 0 s =
  match
    lazy_class not_newline 0 s ∅ (fun pos' s' cs' =>
      match run typePart pos' s' (<[1 := (0, pos')]> cs')
              (fun p s c => run funcTail p s c finish) with
      | Some res => Some res
      | None => run funcTail pos' s' (<[1 := (0, pos')]> cs') finish
      end)
  with
  | Some res => Some res
  | None => run funcTail 0 s ∅ finish
  end.
Proof.
  unfold funcOffsetMatcher. rewrite search_anchored.
  rewrite <- (lazy_loop_class not_newline (length s)) by done. reflexivity.
Qed.

Lemma run_funcTail_finish pos s cs :
  run funcTail pos s cs finish <> None <-> exists F D, tail_parts s F D.
Proof.
  split.
  - destruct (run funcTail pos s cs finish) eqn:E; [|done]. intros _.
    apply run_funcTail_Some in E as (F & D & H & _). eauto.
  - intros (F & D & H) E. by apply (run_funcTail_None _ _ _ _ E) in H.
Qed.

Lemma opt_type_cons T : T <> [] -> opt_type T = "."%char :: T.
Proof. by destruct T. Qed.

Lemma search_funcOffset_Some s res :
  search funcOffsetMatcher 0 s = Some res ->
  exists P T F D, rule_parse s P T F D /\ res = rule_caps P T F D.
Proof.
  rewrite funcOffset_unfold.
  destruct (lazy_class _ _ _ _ _) as [res'|] eqn:E.
  - intros [= ->].
    apply lazy_class_Some in E as (P & t & -> & HP & H & Hmin).
    cbv beta in H. case_scrutinee H Et.
    + injection H as ->.
      apply run_typePart_Some in Et as (T & t2 & -> & HT & Hc & Et).
      apply run_funcTail_Some in Et as (F & D & (-> & HF & HcF & HD & HcD) & Et).
      injection Et as <-.
      exists P, T, F, D. split; [split|].
      * unfold rule_parts. rewrite opt_type_cons by done. by repeat split.
      * intros ->. done.
      * unfold rule_caps. rewrite opt_type_cons by done.
        destruct T as [|c T]; [done|]. unfold type_caps.
        rewrite length_app. simpl length.
        replace (length P + S (S (length T))) with (S (0 + length P) + length (c :: T))
          by (simpl; lia). done.
    + apply run_funcTail_Some in H as (F & D & (-> & HF & HcF & HD & HcD) & H).
      injection H as <-.
      exists P, [], F, D. split; [split|].
      * by repeat split.
      * intros _ P' T' F' D' (E' & HP' & HT' & HF' & HcF' & HD' & HcD').
        destruct T' as [|c' T']; [done|]. exfalso.
        simpl in E'.
        assert (length P' < length P) as Hlt.
        { change ("."%char :: c' :: T' ++ "."%char :: F' ++ "="%char :: D')
            with (("."%char :: c' :: T') ++ "."%char :: F' ++ "="%char :: D') in E'.
          rewrite app_assoc in E'.
          apply split_at_last in E' as [-> _].
          - rewrite length_app. simpl. lia.
          - apply not_elem_of_app. split; [by eapply forallb_not_in|].
            apply not_elem_of_cons. split; [done|by eapply forallb_not_in].
          - apply not_elem_of_app. split; [by eapply forallb_not_in|].
            apply not_elem_of_cons. split; [done|by eapply forallb_not_in]. }
        pose proof (Hmin P' _ E' Hlt) as Hk. cbv beta in Hk.
        case_scrutinee Hk Et'; [done|].
        pose proof (run_typePart_None _ _ _ _ Et' (c' :: T')
                      ("."%char :: F' ++ "="%char :: D') eq_refl ltac:(done) HT') as Hn.
        cbv beta in Hn.
        by pose proof (run_funcTail_None _ _ _ _ Hn F' D' ltac:(by repeat split)).
      * unfold rule_caps. simpl opt_type. rewrite app_nil_r. done.
  - intros H. exfalso.
    pose proof (lazy_class_None _ _ _ _ _ E [] s eq_refl eq_refl) as Hk.
    cbv beta in Hk. case_scrutinee Hk Et; [done|].
    assert (run funcTail 0 s ∅ finish <> None) as Hne by congruence.
    apply run_funcTail_finish in Hne.
    by apply (run_funcTail_finish (0 + length (@nil ascii)) s (<[1:=(0, 0 + length (@nil ascii))]> ∅)) in Hne.
Qed.

Lemma search_funcOffset_None s :
  search funcOffsetMatcher 0 s = None -> forall P T F D, ~ rule_parts s P T F D.
Proof.
  rewrite funcOffset_unfold.
  destruct (lazy_class _ _ _ _ _) as [res'|] eqn:E; [done|]. intros _.
  intros P T F D (-> & HP & HT & HF & HcF & HD & HcD).
  pose proof (lazy_class_None _ _ _ _ _ E P _ eq_refl HP) as Hk.
  cbv beta in Hk. case_scrutinee Hk Et; [done|].
  destruct T as [|c T]; simpl opt_type in *.
  - by pose proof (run_funcTail_None _ _ _ _ Hk F D ltac:(by repeat split)).
  - pose proof (run_typePart_None _ _ _ _ Et (c :: T)
                  ("."%char :: F ++ "="%char :: D) eq_refl ltac:(done) HT) as Hn.
    cbv beta in Hn.
    by pose proof (run_funcTail_None _ _ _ _ Hn F D ltac:(by repeat split)).
Qed.

Lemma rule_parse_unique s P T F D P' T' F' D' :
  rule_parse s P T F D -> rule_parse s P' T' F' D' ->
  P = P' /\ T = T' /\ F = F' /\ D = D'.
Proof.
  intros [H1 Hm1] [H2 Hm2].
  pose proof H1 as (-> & HP & HT & HF & HcF & HD & HcD).
  pose proof H2 as (E & HP' & HT' & HF' & HcF' & HD' & HcD').
  rewrite !app_assoc in E.
  apply split_at_last in E as [E1 E2].
  - apply split_at_last in E2 as [-> ->]; try by eapply forallb_not_in.
    destruct T as [|c T], T' as [|c' T'].
    + simpl in E1. by rewrite !app_nil_r in E1.
    + by specialize (Hm1 eq_refl _ _ _ _ H2).
    + by specialize (Hm2 eq_refl _ _ _ _ H1).
    + simpl in E1. apply split_at_last in E1 as [-> [= -> ->]];
        [done|by eapply forallb_not_in..].
  - apply not_elem_of_app. split; [by eapply forallb_not_in|].
    apply not_elem_of_cons. split; [done|by eapply forallb_not_in].
  - apply not_elem_of_app. split; [by eapply forallb_not_in|].
    apply not_elem_of_cons. split; [done|by eapply forallb_not_in].
Qed.

End RulePattern.

(** ** From bytes to strings *)

Lemma to_bytes_app (a b : string) : to_bytes (a +:+ b) = to_bytes a ++ to_bytes b.
Proof.
  induction a as [|c a IH]; [done|].
  change (String c a +:+ b) with (String c (a +:+ b)).
  unfold to_bytes in *. simpl. by rewrite IH.
Qed.

Lemma of_to_bytes (s : string) : of_bytes (to_bytes s) = s.
Proof. apply string_of_list_ascii_of_string. Qed.

Lemma to_of_bytes (l : bytes) : to_bytes (of_bytes l) = l.
Proof. apply list_ascii_of_string_of_list_ascii. Qed.

Lemma to_bytes_inj (a b : string) : to_bytes a = to_bytes b -> a = b.
Proof. intros E. by rewrite <- (of_to_bytes a), E, of_to_bytes. Qed.

Lemma to_bytes_nil (a : string) : to_bytes a = [] <-> a = "".
Proof. split; [intros E; by apply to_bytes_inj|by intros ->]. Qed.

Lemma submatch_part (a b c : bytes) (cs : caps) (i : nat) :
  cs !! i = Some (length a, (length a + length b)%nat) ->
  submatch (a ++ b ++ c) cs i = of_bytes b.
Proof.
  intros E. unfold submatch. rewrite E.
  replace (length a + length b - length a)%nat with (length b) by lia.
  by rewrite drop_app_length, take_app_length.
Qed.

Lemma submatch_at (s a x c : bytes) (cs : caps) (i b e : nat) :
  cs !! i = Some (b, e) -> s = a ++ x ++ c ->
  b = length a -> e = (b + length x)%nat ->
  submatch s cs i = of_bytes x.
Proof. intros E -> -> ->. by apply submatch_part. Qed.

(** ** The whitelist pattern on strings *)

Lemma whitelist_form_parts v pkg typ :
  whitelist_form v pkg typ <->
  whitelist_parts (to_bytes v) (to_bytes pkg) (to_bytes typ).
Proof.
  unfold whitelist_form, whitelist_parts. rewrite <- to_bytes_nil.
  split; intros (E & H); (split; [|done]).
  - subst v. by rewrite !to_bytes_app.
  - apply to_bytes_inj. by rewrite !to_bytes_app.
Qed.

Lemma FindStringSubmatch_whitelist v pkg typ :
  whitelist_form v pkg typ ->
  FindStringSubmatch typeWhitelistMatcher v = [v; pkg; typ].
Proof.
  intros Hf. apply whitelist_form_parts in Hf.
  unfold FindStringSubmatch.
  destruct (search typeWhitelistMatcher 0 (to_bytes v)) as [res|] eqn:E.
  - apply search_whitelist_Some in E as (P & T & HPT & ->).
    destruct (whitelist_parts_unique _ _ _ _ _ Hf HPT) as [<- <-].
    destruct Hf as (Ev & _). cbn [NumSubexp typeWhitelistMatcher Nat.max seq map].
    f_equal; [|f_equal; [|f_equal]].
    + transitivity (of_bytes (to_bytes v)); [|apply of_to_bytes].
      rewrite <- (app_nil_r (to_bytes v)) at 1.
      apply (submatch_part [] (to_bytes v) []).
      rewrite Ev, length_app. simpl. unfold whitelist_caps.
      rewrite lookup_insert_eq. do 2 f_equal. lia.
    + transitivity (of_bytes (to_bytes pkg)); [|apply of_to_bytes]. rewrite Ev.
      apply (submatch_part [] (to_bytes pkg) ("."%char :: to_bytes typ)).
      unfold whitelist_caps.
      rewrite lookup_insert_ne by done. rewrite lookup_insert_ne by done.
      by rewrite lookup_insert_eq.
    + transitivity (of_bytes (to_bytes typ)); [|apply of_to_bytes]. rewrite Ev.
      replace (to_bytes pkg ++ "."%char :: to_bytes typ)
        with ((to_bytes pkg ++ ["."%char]) ++ to_bytes typ ++ [])
        by (by rewrite app_nil_r, <- app_assoc).
      apply submatch_part. unfold whitelist_caps.
      rewrite lookup_insert_ne, lookup_insert_eq by done.
      rewrite length_app. simpl. do 2 f_equal; lia.
  - by apply search_whitelist_None with (P := to_bytes pkg) (T := to_bytes typ) in E.
Qed.

Lemma FindStringSubmatch_whitelist_nil v :
  (forall pkg typ, ~ whitelist_form v pkg typ) ->
  FindStringSubmatch typeWhitelistMatcher v = [].
Proof.
  intros Hno. unfold FindStringSubmatch.
  destruct (search typeWhitelistMatcher 0 (to_bytes v)) as [res|] eqn:E; [|done].
  apply search_whitelist_Some in E as (P & T & HPT & ->).
  destruct (Hno (of_bytes P) (of_bytes T)).
  apply whitelist_form_parts. by rewrite !to_of_bytes.
Qed.

Lemma whitelist_form_dec v :
  (exists pkg typ, whitelist_form v pkg typ) \/ (forall pkg typ, ~ whitelist_form v pkg typ).
Proof.
  destruct (search typeWhitelistMatcher 0 (to_bytes v)) as [res|] eqn:E.
  - left. apply search_whitelist_Some in E as (P & T & HPT & ->).
    exists (of_bytes P), (of_bytes T). apply whitelist_form_parts. by rewrite !to_of_bytes.
  - right. intros pkg typ Hf. apply whitelist_form_parts in Hf.
    by eapply search_whitelist_None.
Qed.

(** ** The rule pattern on strings *)

Lemma to_bytes_opt_type typ : to_bytes (opt_type_text typ) = opt_type (to_bytes typ).
Proof. by destruct typ. Qed.

Lemma rule_form_parts v pkg typ fn digits :
  rule_form v pkg typ fn digits <->
  rule_parts (to_bytes v) (to_bytes pkg) (to_bytes typ) (to_bytes fn) (to_bytes digits).
Proof.
  unfold rule_form, rule_parts. rewrite <- !to_bytes_nil.
  split; intros (E & H); (split; [|done]).
  - subst v. by rewrite !to_bytes_app, to_bytes_opt_type.
  - apply to_bytes_inj. by rewrite !to_bytes_app, to_bytes_opt_type.
Qed.

Lemma rule_reading_parse v pkg typ fn digits :
  rule_reading v pkg typ fn digits <->
  rule_parse (to_bytes v) (to_bytes pkg) (to_bytes typ) (to_bytes fn) (to_bytes digits).
Proof.
  unfold rule_reading, rule_parse. rewrite rule_form_parts, <- to_bytes_nil.
  split; intros [H Hm]; (split; [done|]); intros Ht.
  - intros P' T' F' D' H'. rewrite <- (to_of_bytes T'). apply to_bytes_nil.
    apply (Hm Ht (of_bytes P') (of_bytes T') (of_bytes F') (of_bytes D')).
    apply rule_form_parts. by rewrite !to_of_bytes.
  - intros pkg' typ' fn' digits' H'. apply to_bytes_nil.
    by eapply Hm; [|apply rule_form_parts].
Qed.

Lemma rule_caps_submatches s P T F D :
  s = P ++ opt_type T ++ "."%char :: F ++ "="%char :: D ->
  map (submatch s (rule_caps P T F D)) (seq 0 5) =
  [of_bytes s; of_bytes P; of_bytes T; of_bytes F; of_bytes D].
Proof.
  intros ->. cbn [seq map]. unfold rule_caps, tail_caps.
  f_equal; [|f_equal; [|f_equal; [|f_equal; [|f_equal]]]].
  - eapply (submatch_at _ [] _ []); [apply lookup_insert_eq|by rewrite app_nil_r|done|].
    rewrite !length_app. simpl. rewrite !length_app. simpl. lia.
  - eapply (submatch_at _ [] P); [|reflexivity|done|done].
    do 3 (rewrite lookup_insert_ne by done).
    destruct T; simpl; [|rewrite lookup_insert_ne by done]; apply lookup_insert_eq.
  - destruct T as [|c T].
    + unfold submatch. do 3 (rewrite lookup_insert_ne by done). simpl.
      by rewrite lookup_insert_ne, lookup_empty by done.
    + eapply (submatch_at _ (P ++ ["."%char]) (c :: T)).
      * do 3 (rewrite lookup_insert_ne by done). apply lookup_insert_eq.
      * simpl. by rewrite <- !app_assoc.
      * rewrite length_app. simpl. lia.
      * done.
  - eapply (submatch_at _ (P ++ opt_type T ++ ["."%char]) F).
    + do 2 (rewrite lookup_insert_ne by done). apply lookup_insert_eq.
    + by rewrite <- !app_assoc.
    + rewrite !length_app. simpl. lia.
    + done.
  - eapply (submatch_at _ (P ++ opt_type T ++ "."%char :: F ++ ["="%char]) D []).
    + rewrite lookup_insert_ne by done. apply lookup_insert_eq.
    + rewrite app_nil_r. rewrite <- !app_assoc. simpl. by rewrite <- !app_assoc.
    + rewrite !length_app. simpl. rewrite !length_app. simpl. lia.
    + done.
Qed.

Lemma FindStringSubmatch_rule v pkg typ fn digits :
  rule_reading v pkg typ fn digits ->
  FindStringSubmatch funcOffsetMatcher v = [v; pkg; typ; fn; digits].
Proof.
  intros Hr. apply rule_reading_parse in Hr.
  unfold FindStringSubmatch.
  destruct (search funcOffsetMatcher 0 (to_bytes v)) as [res|] eqn:E.
  - apply search_funcOffset_Some in E as (P & T & F & D & HP & ->).
    destruct (rule_parse_unique _ _ _ _ _ _ _ _ _ Hr HP) as (<- & <- & <- & <-).
    change (S (NumSubexp funcOffsetMatcher)) with 5%nat.
    rewrite rule_caps_submatches by apply Hr. by rewrite !of_to_bytes.
  - destruct Hr as [Hr _]. by apply (search_funcOffset_None _ E) in Hr.
Qed.

Lemma rule_form_dec v :
  (exists pkg typ fn digits, rule_reading v pkg typ fn digits) \/
  (forall pkg typ fn digits, ~ rule_form v pkg typ fn digits).
Proof.
  destruct (search funcOffsetMatcher 0 (to_bytes v)) as [res|] eqn:E.
  - left. apply search_funcOffset_Some in E as (P & T & F & D & HP & ->).
    exists (of_bytes P), (of_bytes T), (of_bytes F), (of_bytes D).
    apply rule_reading_parse. by rewrite !to_of_bytes.
  - right. intros pkg typ fn digits Hf. apply rule_form_parts in Hf.
    by eapply search_funcOffset_None.
Qed.

Lemma FindStringSubmatch_rule_nil v :
  (forall pkg typ fn digits, ~ rule_form v pkg typ fn digits) ->
  FindStringSubmatch funcOffsetMatcher v = [].
Proof.
  intros Hno. unfold FindStringSubmatch.
  destruct (search funcOffsetMatcher 0 (to_bytes v)) as [res|] eqn:E; [|done].
  apply search_funcOffset_Some in E as (P & T & F & D & [HP _] & ->).
  destruct (Hno (of_bytes P) (of_bytes T) (of_bytes F) (of_bytes D)).
  apply rule_form_parts. by rewrite !to_of_bytes.
Qed.

Lemma rule_reading_unique v p t f d p' t' f' d' :
  rule_reading v p t f d -> rule_reading v p' t' f' d' ->
  p = p' /\ t = t' /\ f = f' /\ d = d'.
Proof.
  intros H H'. apply rule_reading_parse in H, H'.
  destruct (rule_parse_unique _ _ _ _ _ _ _ _ _ H H') as (? & ? & ? & ?).
  repeat split; by apply to_bytes_inj.
Qed.

Lemma rule_form_digits_unique v p t f d p' t' f' d' :
  rule_form v p t f d -> rule_form v p' t' f' d' -> d = d'.
Proof.
  intros H H'. apply rule_form_parts in H, H'.
  destruct H as (E & HP & HT & HF & HcF & HD & HcD).
  destruct H' as (E' & HP' & HT' & HF' & HcF' & HD' & HcD').
  rewrite E in E'. apply to_bytes_inj.
  assert (forall (A : bytes) (B C : bytes), A ++ B ++ "."%char :: C = (A ++ B) ++ "."%char :: C)
    as Hassoc by (intros; by rewrite app_assoc).
  rewrite !Hassoc in E'.
  apply split_at_last in E' as [_ E'].
  - apply split_at_last in E' as [_ E']; [done|by eapply forallb_not_in..].
  - apply not_elem_of_app. split; [by eapply forallb_not_in|].
    apply not_elem_of_cons. split; [done|by eapply forallb_not_in].
  - apply not_elem_of_app. split; [by eapply forallb_not_in|].
    apply not_elem_of_cons. split; [done|by eapply forallb_not_in].
Qed.

(** ** strconv.Atoi on decimal digits *)

Lemma digits_fold acc l :
  forallb is_digit l = true ->
  strconv.digits acc l =
  Some (fold_left (fun acc c => acc * 10 + (Z.of_nat (nat_of_ascii c) - 48)) l acc).
Proof.
  revert acc. induction l as [|c l IH]; intros acc H; simpl in *; [done|].
  apply andb_true_iff in H as [Hc H]. rewrite Hc. by apply IH.
Qed.

Lemma fold_digits_nonneg acc l :
  forallb is_digit l = true -> 0 <= acc ->
  0 <= fold_left (fun acc c => acc * 10 + (Z.of_nat (nat_of_ascii c) - 48)) l acc.
Proof.
  revert acc. induction l as [|c l IH]; intros acc H Hacc; simpl in *; [done|].
  apply andb_true_iff in H as [Hc H]. apply IH; [done|].
  unfold is_digit in Hc. apply andb_true_iff in Hc as [Hc _].
  apply Nat.leb_le in Hc. lia.
Qed.

Lemma decimal_nonneg d : forallb is_digit (to_bytes d) = true -> 0 <= decimal d.
Proof. intros H. by apply fold_digits_nonneg. Qed.

Lemma Atoi_digits d :
  d <> "" -> forallb is_digit (to_bytes d) = true ->
  strconv.Atoi d =
    if strconv.maxInt <? decimal d
    then (strconv.maxInt, Some (NumError "Atoi" d strconv.ErrRange))
    else (decimal d, None).
Proof.
  intros Hne Hd. unfold strconv.Atoi, decimal.
  pose proof (decimal_nonneg d Hd) as Hpos. unfold decimal in Hpos.
  destruct (to_bytes d) as [|c l] eqn:E; [by apply to_bytes_nil in E|].
  assert (Ascii.eqb c "-" = false /\ Ascii.eqb c "+" = false) as [-> ->].
  { simpl in Hd. apply andb_true_iff in Hd as [Hc _].
    split; apply Ascii.eqb_neq; intros ->; done. }
  rewrite digits_fold by done.
  destruct (Z.ltb_spec strconv.maxInt
              (fold_left (fun acc c => acc * 10 + (Z.of_nat (nat_of_ascii c) - 48)) (c :: l) 0));
    [done|].
  destruct (Z.ltb_spec
              (fold_left (fun acc c => acc * 10 + (Z.of_nat (nat_of_ascii c) - 48)) (c :: l) 0)
              strconv.minInt) as [Hlt|]; [|done].
  assert (strconv.minInt < 0) by done. lia.
Qed.

(** ** The two Set methods *)

Lemma funcOffset_Set_reading o v pkg typ fn digits :
  rule_reading v pkg typ fn digits ->
  funcOffset_Set o v =
    if strconv.maxInt <? decimal digits
    then (o, Some (NumError "Atoi" digits strconv.ErrRange))
    else (<[ {| pkg := pkg; typ := typ; fun_ := fn |} := decimal digits ]> o, None).
Proof.
  intros Hr. unfold funcOffset_Set. rewrite (FindStringSubmatch_rule _ _ _ _ _ Hr).
  cbn [length Nat.eqb negb lookup_total list_lookup_total].
  destruct Hr as [(_ & _ & _ & _ & _ & Hne & Hd) _].
  rewrite Atoi_digits by done.
  by destruct (strconv.maxInt <? decimal digits).
Qed.

Lemma funcOffset_Set_no_form o v :
  (forall pkg typ fn digits, ~ rule_form v pkg typ fn digits) ->
  funcOffset_Set o v =
    (o, Some (errors.New "invalid func offset; should be of form [pkg[.type]].<func>=<offset>")).
Proof.
  intros Hno. unfold funcOffset_Set. by rewrite FindStringSubmatch_rule_nil.
Qed.

Lemma typeWhitelist_Set_form w v pkg typ :
  whitelist_form v pkg typ ->
  typeWhitelist_Set w v = (<[ {| wpkg := pkg; wtyp := typ |} := true ]> w, None).
Proof.
  intros Hf. unfold typeWhitelist_Set. by rewrite (FindStringSubmatch_whitelist _ _ _ Hf).
Qed.

Lemma typeWhitelist_Set_no_form w v :
  (forall pkg typ, ~ whitelist_form v pkg typ) ->
  typeWhitelist_Set w v =
    (w, Some (errors.New "invalid type whitelist; should be of form <pkg>.<type>")).
Proof.
  intros Hno. unfold typeWhitelist_Set. by rewrite FindStringSubmatch_whitelist_nil.
Qed.

Lemma rule_reading_of_match v pkg typ fn digits :
  FindStringSubmatch funcOffsetMatcher v = [v; pkg; typ; fn; digits] ->
  rule_reading v pkg typ fn digits.
Proof.
  intros E. destruct (rule_form_dec v) as [(p & t & f & d & Hr)|Hno].
  - rewrite (FindStringSubmatch_rule _ _ _ _ _ Hr) in E. by injection E as <- <- <- <-.
  - by rewrite (FindStringSubmatch_rule_nil _ Hno) in E.
Qed.

Lemma whitelist_form_of_match v pkg typ :
  FindStringSubmatch typeWhitelistMatcher v = [v; pkg; typ] ->
  whitelist_form v pkg typ.
Proof.
  intros E. destruct (whitelist_form_dec v) as [(p & t & Hf)|Hno].
  - rewrite (FindStringSubmatch_whitelist _ _ _ Hf) in E. by injection E as <- <-.
  - by rewrite (FindStringSubmatch_whitelist_nil _ Hno) in E.
Qed.

Lemma whitelist_form_unique v pkg typ a b :
  whitelist_form v pkg typ ->
  v = a +:+ "." +:+ b -> "."%char ∉ to_bytes b -> a = pkg /\ b = typ.
Proof.
  intros (E & _ & _ & Hc) E' Hb. rewrite E in E'.
  apply (f_equal to_bytes) in E'. rewrite !to_bytes_app in E'.
  apply split_at_last in E' as [E1 E2]; [|by eapply forallb_not_in|done].
  split; symmetry; by apply to_bytes_inj.
Qed.

(** ** Offsets are never negative *)

Lemma funcOffset_Set_nonneg o v :
  offsets_nonneg o -> offsets_nonneg (funcOffset_Set o v).1.
Proof.
  intros Ho. destruct (rule_form_dec v) as [(pkg & typ & fn & digits & Hr)|Hno].
  - rewrite (funcOffset_Set_reading _ _ _ _ _ _ Hr).
    destruct (strconv.maxInt <? decimal digits); [done|]. simpl.
    apply map_Forall_insert_2; [|done].
    apply decimal_nonneg, Hr.
  - by rewrite (funcOffset_Set_no_form _ _ Hno).
Qed.

Lemma funcOffset_SetAll_nonneg o vs :
  offsets_nonneg o -> offsets_nonneg (funcOffset_SetAll o vs).1.
Proof.
  revert o. induction vs as [|v vs IH]; intros o Ho; simpl; [done|].
  pose proof (funcOffset_Set_nonneg o v Ho) as Hv.
  destruct (funcOffset_Set o v) as [o' [e|]]; [done|]. by apply IH.
Qed.

(** ** The outcome of the whitelist scan *)

Lemma plain_not_whitelisted w p l :
  Forall (plainArg w p) l -> Exists (whitelistedArg w p) l -> False.
Proof.
  rewrite Forall_forall, Exists_exists. intros Hall (a & Hin & Ha).
  by destruct (Hall a Hin).
Qed.

(** With a whitelisted argument among them, the scan of the arguments
    stops at the first that is not plain: at a whitelisted one when the
    scan is safe, at one of a type without a package otherwise. *)
Lemma scan_outcome w p l :
  Exists (whitelistedArg w p) l ->
  (scanSafe w p l /\
   exists l1 a l2, l = l1 ++ a :: l2 /\ Forall (plainArg w p) l1 /\ whitelistedArg w p a) \/
  (~ scanSafe w p l /\
   exists l1 a l2, l = l1 ++ a :: l2 /\ Forall (plainArg w p) l1 /\ noPackageArg p a).
Proof.
  intros Hex. destruct (first_not_plain w p l) as [Hall|(l1 & a & l2 & -> & Hall & [Ha|Ha])].
  - destruct (plain_not_whitelisted _ _ _ Hall Hex).
  - left. split; [|by exists l1, a, l2].
    intros i b Hi Hb. exists (length l1), a.
    split; [|split; [by apply list_lookup_middle|done]].
    destruct (Nat.lt_total i (length l1)) as [Hlt|[->|Hgt]]; [| |done].
    + rewrite lookup_app_l in Hi by done.
      rewrite Forall_lookup in Hall. by destruct (Hall i b Hi).
    + rewrite list_lookup_middle in Hi by done. injection Hi as <-.
      by destruct (whitelistedArg_has_package w p a Ha).
  - right. split; [|by exists l1, a, l2].
    intros Hsafe.
    destruct (Hsafe (length l1) a) as (j & b & Hj & Hb & Hwb);
      [by apply list_lookup_middle|done|].
    rewrite lookup_app_l in Hb by done.
    rewrite Forall_lookup in Hall. by destruct (Hall j b Hb).
Qed.

Lemma scanSafe_no_panic w p l :
  Forall (fun a => ~ noPackageArg p a) l -> scanSafe w p l.
Proof.
  intros Hall i a Hi Ha. rewrite Forall_lookup in Hall. by destruct (Hall i a Hi).
Qed.

(** * The pair validator: the claims *)

(** C7. A matched call with no more arguments than the offset has no
    relevant argument and gets no diagnostic. *)
Theorem no_relevant_argument_no_diagnostic w p name offset c :
  len (ast.Args c) <= offset ->
  relevant offset c = [] /\ argsCorrect w p name offset c = Some [].
Proof.
  intros H. split; [by apply relevant_nil|].
  unfold argsCorrect. by destruct (Z.leb_spec (len (ast.Args c)) offset); [|lia].
Qed.

(** C1. A matched call with an odd number of relevant arguments that is
    not a single whitelisted argument gets exactly one diagnostic, the
    arity diagnostic, at the call, whose text starts with the number of all
    arguments of the call, unless it is a single argument of a named type
    without a package, or of a pointer to one: there the whitelist test of
    the single argument panics and nothing is reported. *)
Theorem odd_relevant_count_one_arity_diagnostic w p name offset c :
  0 <= offset ->
  Nat.odd (length (relevant offset c)) = true ->
  ~ (exists a, relevant offset c = [a] /\ whitelistedArg w p a) ->
  len (relevant offset c) = len (ast.Args c) - offset /\
  (~ (exists a, relevant offset c = [a] /\ noPackageArg p a) ->
   argsCorrect w p name offset c =
     Some [ {| Pos := ast.CallPos c;
               Message := pretty (len (ast.Args c)) +:+ " args passed to " +:+ name
                            +:+ "; must be even" |} ]) /\
  ((exists a, relevant offset c = [a] /\ noPackageArg p a) ->
   argsCorrect w p name offset c = None).
Proof.
  intros H0 Hodd Hsole.
  pose proof (relevant_nonempty_lt _ _ (odd_nonempty _ Hodd)) as Hlt.
  split; [apply len_relevant; lia|].
  rewrite argsCorrect_relevant, Hodd by done.
  destruct (relevant offset c) as [|a [|b l]] eqn:E; try done.
  - destruct (isWhitelisted w p a) as [[]|] eqn:Ea; simpl.
    + destruct Hsole. exists a. split; [done|by apply isWhitelisted_iff].
    + split; [done|]. intros (a' & [= <-] & Hnp).
      apply (isWhitelisted_panics w) in Hnp. congruence.
    + split; [|done]. intros Hnp. destruct Hnp. exists a.
      split; [done|by apply (isWhitelisted_panics w)].
  - split; [done|]. by intros (a' & [=] & _).
Qed.

(** C2. A matched call with exactly one relevant argument, whose type is a
    registered named type or a pointer to one, gets no diagnostic. *)
Theorem sole_whitelisted_argument_no_diagnostic w p name offset c a :
  0 <= offset ->
  relevant offset c = [a] ->
  whitelistedArg w p a ->
  len (ast.Args c) - offset = 1 /\ argsCorrect w p name offset c = Some [].
Proof.
  intros H0 E Ha.
  assert (offset < len (ast.Args c)) as Hlt
    by (apply relevant_nonempty_lt; by rewrite E).
  split.
  - rewrite <- len_relevant, E by lia. done.
  - rewrite argsCorrect_relevant, E by done.
    apply isWhitelisted_iff in Ha. by rewrite Ha.
Qed.

(** C3, as amended. A matched call with more than one relevant argument,
    at least one of them whitelisted: when the number of relevant arguments
    is odd it gets exactly one diagnostic, the arity one; when it is even
    and no relevant argument before the first whitelisted one is of a type
    without a package, it gets exactly one diagnostic, the whitelist-mixing
    one. *)
Theorem whitelisted_among_several_arguments w p name offset c :
  0 <= offset ->
  (1 < length (relevant offset c))%nat ->
  Exists (whitelistedArg w p) (relevant offset c) ->
  if Nat.odd (length (relevant offset c))
  then argsCorrect w p name offset c = Some [arityDiag c name]
  else scanSafe w p (relevant offset c) ->
       exists i, argsCorrect w p name offset c = Some [mixingDiag c name i].
Proof.
  intros H0 Hlen Hex.
  destruct (Nat.odd (length (relevant offset c))) eqn:Hodd.
  - rewrite argsCorrect_relevant, Hodd;
      [|done|apply relevant_nonempty_lt; by apply Exists_nonempty in Hex].
    destruct (relevant offset c) as [|a [|b l]]; simpl in Hlen; [lia..|done].
  - intros Hsafe.
    destruct (scan_outcome _ _ _ Hex) as [[_ (l1 & a & l2 & E & Hall & Ha)]|[Hno _]];
      [|done].
    eexists. by eapply argsCorrect_mixing.
Qed.

(** C4. A matched call with an even number, at least two, of relevant
    arguments, one of them whitelisted, at a key or a value position. When
    no relevant argument before the first whitelisted one is of a type
    without a package, the call gets exactly one diagnostic, at the call,
    for the first whitelisted argument: "arg", the index of that argument
    among all arguments of the call, "to", the name, "is a whitelisted type;
    should pass one or none"; no key is checked. Otherwise the whitelist
    test panics on the way and nothing is reported. *)
Theorem mixing_diagnostic_at_full_index w p name offset c :
  0 <= offset ->
  Nat.even (length (relevant offset c)) = true ->
  (2 <= length (relevant offset c))%nat ->
  Exists (whitelistedArg w p) (relevant offset c) ->
  (scanSafe w p (relevant offset c) ->
   exists (i : nat) (a : ast.Expr),
     relevant offset c !! i = Some a /\
     index (ast.Args c) (Z.of_nat i + offset) = Some a /\
     whitelistedArg w p a /\
     (forall j b, (j < i)%nat -> relevant offset c !! j = Some b -> ~ whitelistedArg w p b) /\
     argsCorrect w p name offset c =
       Some [ {| Pos := ast.CallPos c;
                 Message := "arg " +:+ pretty (Z.of_nat i + offset) +:+ " to " +:+ name
                              +:+ " is a whitelisted type; should pass one or none" |} ]) /\
  (~ scanSafe w p (relevant offset c) -> argsCorrect w p name offset c = None).
Proof.
  intros H0 Heven Hlen Hex.
  assert (Nat.odd (length (relevant offset c)) = false) as Hodd
    by (by rewrite <- Nat.negb_even, Heven).
  destruct (scan_outcome _ _ _ Hex)
    as [[Hsafe (l1 & a & l2 & E & Hall & Ha)]|[Hno (l1 & a & l2 & E & Hall & Ha)]].
  - split; [intros _|done].
    assert (relevant offset c !! length l1 = Some a) as Hi
      by (rewrite E; apply list_lookup_middle; done).
    exists (length l1), a. repeat split; try done.
    + unfold index. destruct (Z.leb_spec 0 (Z.of_nat (length l1) + offset)); [|lia].
      unfold relevant in Hi. rewrite lookup_drop in Hi. rewrite <- Hi. f_equal. lia.
    + intros j b Hj Hb. rewrite E, lookup_app_l in Hb by done.
      rewrite Forall_lookup in Hall. by destruct (Hall j b Hb).
    + by eapply argsCorrect_mixing.
  - split; [done|intros _]. by eapply argsCorrect_scan_panics.
Qed.

(** C6. A method call whose receiver is a named type: the selector with
    only the function name is looked up first and, when it is there, its
    offset is used, whatever the table holds for the receiver's own type;
    only when it is missing the selector of the receiver type is built. For
    a receiver type with a package that selector is looked up, and when it
    is missing too nothing is reported. For a receiver type without a
    package, as [error], building the selector panics. *)
Theorem generic_selector_before_concrete offsets w p c nv sel pkg_ name u :
  ast.Fun c = ast.Selected nv sel ->
  types.Recv nv = types.Named pkg_ name u ->
  (forall off, offsets !! {| pkg := ""; typ := ""; fun_ := sel |} = Some off ->
     visitCall offsets w p c = argsCorrect w p (types.SelectionString nv) off c) /\
  (forall path, pkg_ = Some path ->
     offsets !! {| pkg := ""; typ := ""; fun_ := sel |} = None ->
     (forall off, offsets !! {| pkg := path; typ := name; fun_ := sel |} = Some off ->
        visitCall offsets w p c = argsCorrect w p (types.SelectionString nv) off c) /\
     (offsets !! {| pkg := path; typ := name; fun_ := sel |} = None ->
        visitCall offsets w p c = Some [])) /\
  (pkg_ = None ->
     offsets !! {| pkg := ""; typ := ""; fun_ := sel |} = None ->
     visitCall offsets w p c = None).
Proof.
  intros Hf Hr. unfold visitCall, comma_ok. rewrite Hf, Hr. simpl.
  split; [|split].
  - intros off ->. done.
  - intros path -> ->. simpl. split.
    + intros off ->. done.
    + intros ->. done.
  - intros -> ->. done.
Qed.

(** C10. During key validation, which a call reaches when the number of
    its relevant arguments is even and the whitelist test passes over each
    of them, an argument at an even index of the relevant arguments for
    which the checker recorded neither a constant value nor a type gets no
    diagnostic: the diagnostics of the call are those of the arguments
    before it followed by those of the arguments after it. *)
Theorem key_without_type_information_accepted w p name offset c l1 a l2 :
  0 <= offset ->
  relevant offset c = l1 ++ a :: l2 ->
  Nat.even (length l1) = true ->
  Nat.even (length (relevant offset c)) = true ->
  Forall (plainArg w p) (relevant offset c) ->
  types.Value (TypesOf p a) = None ->
  types.Typ (TypesOf p a) = None ->
  checkKey p name offset (len l1) a = [] /\
  argsCorrect w p name offset c =
    Some (checkKeys p name offset 0 l1 ++ checkKeys p name offset (len l1 + 1) l2).
Proof.
  intros H0 E Hl1 Heven Hall Hv Ht.
  assert (checkKey p name offset (len l1) a = []) as Hk.
  { unfold checkKey. rewrite Hv, Ht. by destruct (negb _). }
  split; [done|].
  rewrite argsCorrect_keys; [|done|rewrite E; by destruct l1| |done].
  - rewrite E, checkKeys_app. simpl. rewrite Z.add_0_l, Hk. done.
  - by rewrite <- Nat.negb_even, Heven.
Qed.

Lemma stringType_dec t :
  if match types.Underlying t with
     | types.Basic b _ => bool_decide (b = types.String)
     | _ => false
     end
  then stringType t else ~ stringType t.
Proof.
  unfold stringType.
  destruct (types.Underlying t) as [k n| | | | |] eqn:E;
    try (intros [n' Hn]; congruence).
  case_bool_decide; subst; [by exists n|]. intros [n' Hn]. congruence.
Qed.

Lemma checkKey_verdict p name offset (i : nat) a :
  if Nat.even i
  then keyVerdict name (Z.of_nat i + offset) a (TypesOf p a)
         (checkKey p name offset (Z.of_nat i) a)
  else checkKey p name offset (Z.of_nat i) a = [].
Proof.
  unfold checkKey. rewrite rem2_odd_nat, <- Nat.negb_even.
  destruct (Nat.even i); simpl; [|done].
  destruct (TypesOf p a) as [ty [v|]]; simpl.
  - case_bool_decide; simpl; by constructor.
  - destruct ty as [t|]; [|constructor].
    pose proof (stringType_dec t) as Hs.
    destruct (match types.Underlying t with types.Basic _ _ => _ | _ => _ end);
      by constructor.
Qed.

(** C5, as amended. A matched call that reaches key validation (the number
    of relevant arguments is even and positive, the whitelist test passes
    over each of them: none is whitelisted, none of a type without a
    package): its diagnostics are the verdicts on its relevant arguments,
    one after the other, each argument judged on its own. An argument at
    an odd index gets none. At an even index: a constant of string kind
    gets none; a constant of another kind gets one, "is constant", which
    names the type recorded for the constant; an expression that is not
    constant and whose type has the underlying type string gets none; any
    other expression with a recorded type gets one, "is expression", which
    names the type; one without a recorded type gets none. The number in a
    message is the index among all arguments. One call can get several of
    them. *)
Theorem key_validation_by_position w p name offset c :
  0 <= offset ->
  relevant offset c <> [] ->
  Nat.even (length (relevant offset c)) = true ->
  Forall (plainArg w p) (relevant offset c) ->
  (exists verdicts : list (list Diagnostic),
     argsCorrect w p name offset c = Some (mjoin verdicts) /\
     length verdicts = length (relevant offset c) /\
     forall (i : nat) (a : ast.Expr),
       relevant offset c !! i = Some a ->
       exists ds, verdicts !! i = Some ds /\
         if Nat.even i
         then keyVerdict name (Z.of_nat i + offset) a (TypesOf p a) ds
         else ds = []) /\
  (exists w' p' name' offset' c' d1 d2,
     argsCorrect w' p' name' offset' c' = Some [d1; d2]).
Proof.
  intros H0 Hne Heven Hall. split.
  - exists (imap (fun j a => checkKey p name offset (0 + Z.of_nat j) a) (relevant offset c)).
    split; [|split].
    + rewrite argsCorrect_keys, checkKeys_imap; try done.
      by rewrite <- Nat.negb_even, Heven.
    + by rewrite length_imap.
    + intros i a Hi. eexists. rewrite list_lookup_imap, Hi. split; [done|].
      rewrite Z.add_0_l. apply checkKey_verdict.
  - exists TestAnalysis.whitelistedTypes,
      (TestAnalysis.pass TestAnalysis.two_bad_keys), "a/b.X", 1,
      (TestAnalysis.call TestAnalysis.X TestAnalysis.two_bad_keys).
    do 2 eexists. vm_compute. reflexivity.
Qed.

(** * The selector registry: the claims *)

(** C8, as amended. [typeWhitelist.Set] succeeds exactly on the
    specifications [<pkg>.<type>] in which the segment after the last [.] is
    not empty and has no [/] and the text before that [.] has no newline; it
    then registers the text before the last [.] as the package and the
    segment after it as the type. On every other specification, and so on
    every one without a [.], it returns an error and leaves the whitelist
    as it is. *)
Theorem typeWhitelist_Set_accepts_exactly w v :
  (forall w', typeWhitelist_Set w v = (w', None) <->
     exists pkg typ, whitelist_form v pkg typ /\
       w' = <[ {| wpkg := pkg; wtyp := typ |} := true ]> w) /\
  (forall pkg typ a b, whitelist_form v pkg typ ->
     v = a +:+ "." +:+ b -> "."%char ∉ to_bytes b -> a = pkg /\ b = typ) /\
  ((typeWhitelist_Set w v).2 <> None <-> ~ exists pkg typ, whitelist_form v pkg typ) /\
  ((typeWhitelist_Set w v).2 <> None -> (typeWhitelist_Set w v).1 = w) /\
  ("."%char ∉ to_bytes v -> (typeWhitelist_Set w v).2 <> None).
Proof.
  assert ((typeWhitelist_Set w v).2 <> None <-> ~ exists pkg typ, whitelist_form v pkg typ)
    as Hfail.
  { destruct (whitelist_form_dec v) as [(pkg & typ & Hf)|Hno].
    - rewrite (typeWhitelist_Set_form _ _ _ _ Hf). simpl. split; [done|].
      intros []. eauto.
    - rewrite (typeWhitelist_Set_no_form _ _ Hno). simpl. split; [|done].
      intros _ (pkg & typ & Hf). by apply Hno in Hf. }
  split; [|split; [|split; [|split]]].
  - intros w'. split.
    + intros E. destruct (whitelist_form_dec v) as [(pkg & typ & Hf)|Hno].
      * rewrite (typeWhitelist_Set_form _ _ _ _ Hf) in E. injection E as <-. eauto.
      * by rewrite (typeWhitelist_Set_no_form _ _ Hno) in E.
    + intros (pkg & typ & Hf & ->). by apply typeWhitelist_Set_form.
  - intros pkg typ a b. apply whitelist_form_unique.
  - done.
  - intros Hne. destruct (whitelist_form_dec v) as [(pkg & typ & Hf)|Hno].
    + by rewrite (typeWhitelist_Set_form _ _ _ _ Hf) in Hne.
    + by rewrite (typeWhitelist_Set_no_form _ _ Hno).
  - intros Hdot. apply Hfail. intros (pkg & typ & E & _).
    apply Hdot. rewrite E, !to_bytes_app. apply elem_of_app. right. left.
Qed.

(** C9. [funcOffset.Set] returns an error exactly when the specification
    does not have the form [[pkg[.type]].<func>=<offset>] or when its
    offset, a run of decimal digits, is beyond the range of [int]; the map
    is then left as it is. When it returns no error, it has stored, under
    the selector read from the specification with the shortest package, the
    number the digits write, which is not negative. Storing a rule for a
    selector that is already in the map replaces its offset. *)
Theorem funcOffset_Set_accepts_exactly o v :
  ((funcOffset_Set o v).2 <> None <->
     (~ exists pkg typ fn digits, rule_form v pkg typ fn digits) \/
     (exists pkg typ fn digits,
        rule_form v pkg typ fn digits /\ strconv.maxInt < decimal digits)) /\
  ((funcOffset_Set o v).2 <> None -> (funcOffset_Set o v).1 = o) /\
  (forall o', funcOffset_Set o v = (o', None) <->
     exists pkg typ fn digits,
       rule_reading v pkg typ fn digits /\
       0 <= decimal digits <= strconv.maxInt /\
       o' = <[ {| pkg := pkg; typ := typ; fun_ := fn |} := decimal digits ]> o) /\
  (forall v2 o1 o2 pkg typ fn d1 d2,
     funcOffset_Set o v = (o1, None) -> rule_reading v pkg typ fn d1 ->
     funcOffset_Set o1 v2 = (o2, None) -> rule_reading v2 pkg typ fn d2 ->
     o2 = <[ {| pkg := pkg; typ := typ; fun_ := fn |} := decimal d2 ]> o /\
     o2 !! {| pkg := pkg; typ := typ; fun_ := fn |} = Some (decimal d2)).
Proof.
  split; [|split; [|split]].
  - destruct (rule_form_dec v) as [(pkg & typ & fn & digits & Hr)|Hno].
    + rewrite (funcOffset_Set_reading _ _ _ _ _ _ Hr).
      destruct (Z.ltb_spec strconv.maxInt (decimal digits)) as [Hlt|Hle]; simpl.
      * split; [|done]. intros _. right. exists pkg, typ, fn, digits. split; [apply Hr|done].
      * split; [done|]. intros [Hno|(p & t & f & d & Hf & Hlt)].
        -- destruct Hno. exists pkg, typ, fn, digits. apply Hr.
        -- rewrite (rule_form_digits_unique _ _ _ _ _ _ _ _ _ Hf (proj1 Hr)) in Hlt. lia.
    + rewrite (funcOffset_Set_no_form _ _ Hno). simpl. split; [|done].
      intros _. left. intros (p & t & f & d & Hf). by apply Hno in Hf.
  - destruct (rule_form_dec v) as [(pkg & typ & fn & digits & Hr)|Hno].
    + rewrite (funcOffset_Set_reading _ _ _ _ _ _ Hr).
      by destruct (strconv.maxInt <? decimal digits).
    + by rewrite (funcOffset_Set_no_form _ _ Hno).
  - intros o'. split.
    + intros E. destruct (rule_form_dec v) as [(pkg & typ & fn & digits & Hr)|Hno].
      * rewrite (funcOffset_Set_reading _ _ _ _ _ _ Hr) in E.
        destruct (Z.ltb_spec strconv.maxInt (decimal digits)) as [Hlt|Hle]; [done|].
        injection E as <-. exists pkg, typ, fn, digits.
        pose proof (proj1 Hr) as (_ & _ & _ & _ & _ & _ & Hd).
        split; [done|]. split; [|done]. split; [by apply decimal_nonneg|done].
      * by rewrite (funcOffset_Set_no_form _ _ Hno) in E.
    + intros (pkg & typ & fn & digits & Hr & [_ Hle] & ->).
      rewrite (funcOffset_Set_reading _ _ _ _ _ _ Hr).
      by destruct (Z.ltb_spec strconv.maxInt (decimal digits)); [lia|].
  - intros v2 o1 o2 pkg typ fn d1 d2 E1 Hr1 E2 Hr2.
    rewrite (funcOffset_Set_reading _ _ _ _ _ _ Hr1) in E1.
    rewrite (funcOffset_Set_reading _ _ _ _ _ _ Hr2) in E2.
    destruct (strconv.maxInt <? decimal d1); [done|]. injection E1 as <-.
    destruct (strconv.maxInt <? decimal d2); [done|]. injection E2 as <-.
    split; [apply insert_insert_eq|apply lookup_insert_eq].
Qed.

(** * Further properties of the pair validator *)

Lemma checkKey_nil_iff p name offset (i : nat) a :
  checkKey p name offset (Z.of_nat i) a = [] <->
  (Nat.even i = true -> acceptableKey (TypesOf p a)).
Proof.
  pose proof (checkKey_verdict p name offset i a) as Hv.
  destruct (Nat.even i).
  - split.
    + intros E _. rewrite E in Hv. inversion Hv; by constructor.
    + intros Hk. specialize (Hk eq_refl).
      inversion Hk as [ty v Hs E|t Hs E|E]; rewrite <- E in Hv;
        inversion Hv; subst; done.
  - split; done.
Qed.

Lemma checkKeys_nil_iff p name offset (i : nat) l :
  checkKeys p name offset (Z.of_nat i) l = [] <->
  (forall j a, l !! j = Some a -> Nat.even (i + j) = true -> acceptableKey (TypesOf p a)).
Proof.
  revert i. induction l as [|a l IH]; intros i; simpl.
  - split; [intros _ j a; by rewrite lookup_nil|done].
  - rewrite app_nil, checkKey_nil_iff.
    replace (Z.of_nat i + 1) with (Z.of_nat (S i)) by lia. rewrite IH. split.
    + intros [Ha Hl] [|j] b Hb Hj; simpl in Hb.
      * injection Hb as <-. apply Ha. by rewrite Nat.add_0_r in Hj.
      * apply (Hl j b Hb). by replace (S i + j)%nat with (i + S j)%nat by lia.
    + intros H. split.
      * intros Hi. apply (H 0%nat a eq_refl). by rewrite Nat.add_0_r.
      * intros j b Hb Hj. apply (H (S j) b Hb).
        by replace (i + S j)%nat with (S i + j)%nat by lia.
Qed.

Lemma argsCorrect_short w p name offset c :
  len (ast.Args c) <= offset -> argsCorrect w p name offset c = Some [].
Proof.
  intros H. unfold argsCorrect.
  by destruct (Z.leb_spec (len (ast.Args c)) offset); [|lia].
Qed.

(** A list split at an element, and the same by positions. *)
Lemma split_lookup_iff {A} (P Q : A -> Prop) (l : list A) :
  (exists l1 a l2, l = l1 ++ a :: l2 /\ Forall P l1 /\ Q a) <->
  (exists i a, l !! i = Some a /\ Q a /\
     forall j b, (j < i)%nat -> l !! j = Some b -> P b).
Proof.
  split.
  - intros (l1 & a & l2 & -> & Hall & Ha). exists (length l1), a.
    split; [by apply list_lookup_middle|]. split; [done|].
    intros j b Hj Hb. rewrite lookup_app_l in Hb by done.
    rewrite Forall_lookup in Hall. by eapply Hall.
  - intros (i & a & Hi & Ha & Hbefore).
    exists (take i l), a, (drop (S i) l).
    split; [by rewrite take_drop_middle|]. split; [|done].
    apply Forall_lookup. intros j b [Hb Hj]%lookup_take_Some. by eapply Hbefore.
Qed.

Lemma firstWhitelisted_returns w p i l :
  Forall (fun a => ~ noPackageArg p a) l -> is_Some (firstWhitelisted w p i l).
Proof.
  revert i. induction l as [|a l IH]; intros i Hall; simpl; [done|].
  inversion Hall as [|? ? Ha Hl]; subst.
  destruct (isWhitelisted w p a) as [[]|] eqn:E; simpl; [done|by apply IH|].
  by apply (isWhitelisted_panics w) in E.
Qed.

(** Without an argument of a type without a package among the relevant
    ones, [argsCorrect] returns. *)
Lemma argsCorrect_returns w p name offset c :
  0 <= offset ->
  Forall (fun a => ~ noPackageArg p a) (relevant offset c) ->
  is_Some (argsCorrect w p name offset c).
Proof.
  intros H0 Hall.
  destruct (Z.lt_ge_cases offset (len (ast.Args c))) as [Hlt|Hge].
  2:{ by rewrite argsCorrect_short. }
  rewrite argsCorrect_relevant by done.
  destruct (firstWhitelisted_returns w p 0 _ Hall) as [r Hr]. rewrite Hr.
  assert (match relevant offset c with [a] => isWhitelisted w p a | _ => Some false end
          <> None) as Hs.
  { destruct (relevant offset c) as [|a [|b l]]; try done.
    inversion Hall as [|? ? Ha _]; subst. by rewrite (isWhitelisted_panics w). }
  destruct (match relevant offset c with [a] => _ | _ => _ end) as [[]|]; simpl; [done| |done].
  destruct (Nat.odd _); [done|]. by destruct r.
Qed.

(** X1. When [argsCorrect] panics. For an offset that is not negative no
    index or slice expression of it is out of range, and it panics exactly
    in the whitelist test: when the only relevant argument is of a named
    type without a package or of a pointer to one, or when the number of
    relevant arguments is even and one of them is of such a type with only
    plain arguments before it. *)
Theorem argsCorrect_panics_iff w p name offset c :
  0 <= offset ->
  argsCorrect w p name offset c = None <->
    (exists a, relevant offset c = [a] /\ noPackageArg p a) \/
    (Nat.even (length (relevant offset c)) = true /\
     exists i a, relevant offset c !! i = Some a /\ noPackageArg p a /\
       forall j b, (j < i)%nat -> relevant offset c !! j = Some b -> plainArg w p b).
Proof.
  intros H0. rewrite <- split_lookup_iff.
  destruct (Z.lt_ge_cases offset (len (ast.Args c))) as [Hlt|Hge].
  2:{ rewrite (argsCorrect_short w p name offset c Hge), (relevant_nil _ _ Hge).
      split; [done|]. intros [(a & E & _)|(_ & l1 & a & l2 & E & _)]; [done|].
      by destruct l1. }
  rewrite argsCorrect_relevant by done. rewrite <- Nat.negb_even.
  destruct (relevant offset c) as [|a [|b l]] eqn:E.
  - simpl. split; [done|]. intros [(a & ? & _)|(_ & l1 & a & l2 & El & _)]; [done|].
    by destruct l1.
  - destruct (isWhitelisted w p a) as [[]|] eqn:Ea; simpl.
    + split; [done|]. intros [(a' & [= <-] & Ha)|(? & _)]; [|done].
      apply (isWhitelisted_panics w) in Ha. congruence.
    + split; [done|]. intros [(a' & [= <-] & Ha)|(? & _)]; [|done].
      apply (isWhitelisted_panics w) in Ha. congruence.
    + split; [intros _|done]. left. exists a. split; [done|].
      by apply (isWhitelisted_panics w).
  - cbn [mbind option_bind].
    destruct (Nat.even (length (a :: b :: l))) eqn:Hev; cbn [negb].
    + rewrite <- (firstWhitelisted_panics w p 0).
      destruct (firstWhitelisted w p 0 (a :: b :: l)) as [[i|]|]; simpl.
      * split; [done|]. by intros [(? & ? & _)|(_ & ?)].
      * split; [done|]. by intros [(? & ? & _)|(_ & ?)].
      * split; [intros _; by right|done].
    + split; [done|]. by intros [(? & ? & _)|(? & _)].
Qed.

(** X2. When the callback returns. With no negative offset in the table,
    it returns for a call of which no argument is of a type without a
    package, unless it is a method call on a receiver type without a
    package for which there is no rule for every method of that name. *)
Theorem visitCall_returns offsets w p c :
  offsets_nonneg offsets ->
  Forall (fun a => ~ noPackageArg p a) (ast.Args c) ->
  (forall nv sel name u,
     ast.Fun c = ast.Selected nv sel -> types.Recv nv = types.Named None name u ->
     is_Some (offsets !! {| pkg := ""; typ := ""; fun_ := sel |})) ->
  is_Some (visitCall offsets w p c).
Proof.
  intros Ho Hargs Hrecv.
  assert (forall name off, 0 <= off -> is_Some (argsCorrect w p name off c)) as Hac.
  { intros name off Hoff. apply argsCorrect_returns; [done|].
    unfold relevant. by apply Forall_drop. }
  unfold visitCall, comma_ok.
  destruct (ast.Fun c) as [|path sel|nv sel] eqn:Ef; [done| |].
  - destruct (offsets !! _) as [off|] eqn:E; simpl; [|done].
    apply Hac. by eapply (Ho _ off).
  - destruct (types.Recv nv) as [|pkg_ name u| | | |] eqn:Er; simpl; try done.
    destruct (offsets !! {| pkg := ""; typ := ""; fun_ := sel |}) as [off|] eqn:E; simpl.
    + apply Hac. by eapply (Ho _ off).
    + destruct pkg_ as [path|]; simpl.
      * destruct (offsets !! {| pkg := path; typ := name; fun_ := sel |}) as [off|] eqn:E';
          simpl; [|done].
        apply Hac. by eapply (Ho _ off).
      * destruct (Hrecv nv sel name u eq_refl Er) as [off Hoff]. congruence.
Qed.

(** X3. The calls that [argsCorrect] accepts. For an offset that is not
    negative it reports nothing exactly when there is no relevant argument,
    or the only relevant argument is whitelisted, or the number of relevant
    arguments is even, all of them are plain (not whitelisted, not of a
    type without a package) and every one at an even index is an
    acceptable key. *)
Theorem argsCorrect_accepts_iff w p name offset c :
  0 <= offset ->
  argsCorrect w p name offset c = Some [] <->
    relevant offset c = [] \/
    (exists a, relevant offset c = [a] /\ whitelistedArg w p a) \/
    (Nat.even (length (relevant offset c)) = true /\
     Forall (plainArg w p) (relevant offset c) /\
     forall i a, relevant offset c !! i = Some a -> Nat.even i = true ->
       acceptableKey (TypesOf p a)).
Proof.
  intros H0.
  destruct (Z.lt_ge_cases offset (len (ast.Args c))) as [Hlt|Hge].
  2:{ rewrite (argsCorrect_short w p name offset c Hge).
      split; [intros _; left; by apply relevant_nil|done]. }
  rewrite argsCorrect_relevant by done.
  assert (relevant offset c <> []) as Hne.
  { intros E. pose proof (len_relevant offset c H0 ltac:(lia)) as Hl.
    rewrite E in Hl. unfold len in Hl, Hlt. simpl in Hl. lia. }
  destruct (match relevant offset c with [a] => isWhitelisted w p a | _ => Some false end)
    as [[]|] eqn:Hs; simpl.
  - split; [intros _|done]. right. left.
    destruct (relevant offset c) as [|a [|b l]]; try done.
    exists a. split; [done|by apply isWhitelisted_iff].
  - assert (~ exists a, relevant offset c = [a] /\ whitelistedArg w p a) as Hnot.
    { intros (a & E & Ha). rewrite E in Hs. apply isWhitelisted_iff in Ha. congruence. }
    rewrite <- Nat.negb_even.
    destruct (Nat.even (length (relevant offset c))) eqn:Hev; simpl.
    + destruct (firstWhitelisted w p 0 (relevant offset c)) as [[i|]|] eqn:Hf; simpl.
      * split; [done|]. intros [?|[?|(_ & Hall & _)]]; [done..|].
        apply (firstWhitelisted_None w p 0) in Hall. congruence.
      * apply firstWhitelisted_None in Hf. split.
        -- intros [= E]. right. right. split; [done|]. split; [done|].
           intros i a Hi Hi'.
           apply (proj1 (checkKeys_nil_iff p name offset 0 _) E i a Hi Hi').
        -- intros [?|[?|(_ & _ & Hk)]]; [done..|]. f_equal.
           apply (checkKeys_nil_iff p name offset 0). intros j a Hj Hj'. by eapply Hk.
      * split; [done|]. intros [?|[?|(_ & Hall & _)]]; [done..|].
        apply (firstWhitelisted_None w p 0) in Hall. congruence.
    + split; [done|]. intros [?|[?|(? & _)]]; done.
  - split; [done|]. intros [?|[(a & E & Ha)|(Hev & Hall & _)]]; [done| |].
    + rewrite E in Hs. apply isWhitelisted_iff in Ha. congruence.
    + destruct (relevant offset c) as [|a [|b l]]; try done.
Qed.

Lemma checkKey_length p name offset i a :
  (length (checkKey p name offset i a) <= if (Z.rem i 2 =? 0)%Z then 1 else 0)%nat.
Proof.
  unfold checkKey. destruct (Z.rem i 2 =? 0); simpl; [|done].
  repeat (match goal with |- context [match ?x with _ => _ end] => destruct x end);
    simpl; lia.
Qed.

Lemma checkKeys_length p name offset (i : nat) l :
  (length (checkKeys p name offset (Z.of_nat i) l) <=
   if Nat.even i then (length l + 1) / 2 else length l / 2)%nat.
Proof.
  revert i. induction l as [|a l IH]; intros i.
  - cbn [checkKeys length]. destruct (Nat.even i); lia.
  - cbn [checkKeys length]. rewrite length_app.
    pose proof (checkKey_length p name offset (Z.of_nat i) a) as Ha.
    pose proof (rem2_odd_nat i) as Hi. rewrite <- Nat.negb_even in Hi.
    replace (Z.of_nat i + 1) with (Z.of_nat (S i)) by lia.
    specialize (IH (S i)). rewrite Nat.even_succ, <- Nat.negb_even in IH.
    destruct (Nat.even i); cbn [negb] in *.
    + apply negb_false_iff in Hi. rewrite Hi in Ha.
      replace (S (length l) + 1)%nat with (length l + 1 * 2)%nat by lia.
      rewrite Nat.div_add by lia. lia.
    + apply negb_true_iff in Hi. rewrite Hi in Ha.
      replace (S (length l)) with (length l + 1)%nat by lia. lia.
Qed.

Lemma checkKeys_positions p name offset (i : nat) l d :
  d ∈ checkKeys p name offset (Z.of_nat i) l ->
  exists j a, l !! j = Some a /\ Nat.even (i + j) = true /\ Pos d = ast.ExprPos a.
Proof.
  revert i. induction l as [|a l IH]; intros i; simpl.
  - by intros ?%elem_of_nil.
  - intros [Hd|Hd]%elem_of_app.
    + exists 0%nat, a. split; [done|]. rewrite Nat.add_0_r.
      pose proof (checkKey_verdict p name offset i a) as Hv.
      destruct (Nat.even i); [|by rewrite Hv in Hd; apply elem_of_nil in Hd].
      split; [done|].
      inversion Hv as [? ? ? E1 E2|? ? ? E1 E2|? ? E1 E2|? ? E1 E2|E1 E2];
        rewrite <- E2 in Hd;
        first [by apply elem_of_nil in Hd | by apply list_elem_of_singleton in Hd as ->].
    + replace (Z.of_nat i + 1) with (Z.of_nat (S i)) in Hd by lia.
      destruct (IH _ Hd) as (j & b & Hj & He & Hp).
      exists (S j), b. split; [done|]. split; [|done].
      by replace (i + S j)%nat with (S i + j)%nat by lia.
Qed.

(** X4. For an offset that is not negative, [argsCorrect] reports at most
    one diagnostic for every two relevant arguments, and at most one when
    there are fewer than four; every diagnostic is at the call or at
    a relevant argument with an even index. *)
Theorem argsCorrect_diagnostics_bound w p name offset c ds :
  0 <= offset ->
  argsCorrect w p name offset c = Some ds ->
  (length ds <= Nat.max 1 (length (relevant offset c) / 2))%nat /\
  (forall d, d ∈ ds ->
     Pos d = ast.CallPos c \/
     exists i a, relevant offset c !! i = Some a /\ Nat.even i = true /\
                 Pos d = ast.ExprPos a).
Proof.
  intros H0.
  destruct (Z.lt_ge_cases offset (len (ast.Args c))) as [Hlt|Hge].
  2:{ rewrite (argsCorrect_short w p name offset c Hge). intros [= <-].
      split; [simpl; lia|by intros d ?%elem_of_nil]. }
  rewrite argsCorrect_relevant by done.
  destruct (match relevant offset c with [a] => isWhitelisted w p a | _ => Some false end)
    as [[]|]; cbn [mbind option_bind]; [|..|done].
  { intros [= <-]. split; [simpl; lia|by intros d ?%elem_of_nil]. }
  rewrite <- Nat.negb_even.
  destruct (Nat.even (length (relevant offset c))) eqn:Hev; cbn [negb].
  2:{ intros [= <-]. split; [simpl; lia|]. intros d ->%list_elem_of_singleton. by left. }
  destruct (firstWhitelisted w p 0 (relevant offset c)) as [[i|]|];
    cbn [mbind option_bind]; [| |done].
  { intros [= <-]. split; [simpl; lia|]. intros d ->%list_elem_of_singleton. by left. }
  intros [= <-]. split.
  - pose proof (checkKeys_length p name offset 0 (relevant offset c)) as Hl.
    cbn [Nat.even Z.of_nat] in Hl.
    apply Nat.even_spec in Hev as [k Hk]. rewrite Hk in *.
    replace (2 * k + 1)%nat with (1 + k * 2)%nat in Hl by lia.
    rewrite Nat.div_add in Hl by lia.
    replace (2 * k)%nat with (0 + k * 2)%nat by lia.
    rewrite Nat.div_add by lia.
    change (1 / 2)%nat with 0%nat in Hl. change (0 / 2)%nat with 0%nat.
    change (Z.of_nat 0) with 0 in Hl. lia.
  - intros d Hd. right. by apply (checkKeys_positions p name offset 0) in Hd.
Qed.

Lemma firstWhitelisted_ext w p p' i l :
  Forall (fun a => isWhitelisted w p a = isWhitelisted w p' a) l ->
  firstWhitelisted w p i l = firstWhitelisted w p' i l.
Proof.
  revert i. induction l as [|a l IH]; intros i Hall; simpl; [done|].
  inversion Hall as [|? ? Ha Hl]; subst. rewrite Ha.
  destruct (isWhitelisted w p' a) as [[]|]; simpl; [done|by apply IH|done].
Qed.

Lemma checkKeys_ext p p' name offset (i : nat) l :
  (forall j a, l !! j = Some a -> Nat.even (i + j) = true -> TypesOf p a = TypesOf p' a) ->
  checkKeys p name offset (Z.of_nat i) l = checkKeys p' name offset (Z.of_nat i) l.
Proof.
  revert i. induction l as [|a l IH]; intros i H; simpl; [done|].
  replace (Z.of_nat i + 1) with (Z.of_nat (S i)) by lia. f_equal.
  - unfold checkKey. rewrite rem2_odd_nat, <- Nat.negb_even.
    destruct (Nat.even i) eqn:Hi; simpl; [|done].
    rewrite (H 0%nat a eq_refl); [done|]. by rewrite Nat.add_0_r.
  - apply IH. intros j b Hj He. apply (H (S j) b Hj).
    by replace (i + S j)%nat with (S i + j)%nat by lia.
Qed.

(** X5. What [argsCorrect] looks at: for an offset that is not negative,
    its result is the same under two passes for which the whitelist test
    gives the same on the relevant arguments and which record the same type
    and value for the relevant arguments with an even index. What is
    recorded for the first [offset] arguments, and beyond the whitelist
    test for the values, does not count. *)
Theorem argsCorrect_reads_keys_only w p p' name offset c :
  0 <= offset ->
  (forall a, a ∈ relevant offset c -> isWhitelisted w p a = isWhitelisted w p' a) ->
  (forall i a, relevant offset c !! i = Some a -> Nat.even i = true ->
     TypesOf p a = TypesOf p' a) ->
  argsCorrect w p name offset c = argsCorrect w p' name offset c.
Proof.
  intros H0 Hw Hk.
  destruct (Z.lt_ge_cases offset (len (ast.Args c))) as [Hlt|Hge].
  2:{ by rewrite !argsCorrect_short. }
  rewrite !argsCorrect_relevant by done.
  rewrite (firstWhitelisted_ext w p p') by (by apply Forall_forall).
  rewrite (checkKeys_ext p p' name offset 0) by done.
  destruct (relevant offset c) as [|a [|b l]]; try done.
  rewrite (Hw a); [done|left].
Qed.

(** X6. Without a whitelist, a call with exactly one relevant argument
    gets the arity diagnostic, unless the argument is of a named type
    without a package or of a pointer to one: the path of the package is
    read before the empty map is looked into, and the call panics. *)
Theorem sole_argument_without_whitelist p name offset c a :
  0 <= offset ->
  relevant offset c = [a] ->
  (~ noPackageArg p a -> argsCorrect ∅ p name offset c = Some [arityDiag c name]) /\
  (noPackageArg p a -> argsCorrect ∅ p name offset c = None).
Proof.
  intros H0 E.
  rewrite argsCorrect_relevant, E;
    [|done|apply relevant_nonempty_lt; by rewrite E].
  split; intros Ha.
  - replace (isWhitelisted ∅ p a) with (Some false); [done|].
    symmetry. apply isWhitelisted_false. split; [|done].
    inversion 1 as [? ? ? Hr|? ? ? Hr]; unfold registered in Hr;
      by rewrite lookup_empty in Hr.
  - apply (isWhitelisted_panics ∅) in Ha. by rewrite Ha.
Qed.

(** X7. The calls the callback passes over, whatever the arguments and
    the tables hold otherwise: a method call whose receiver type is not a
    named type, a pointer to a named type included, even when there is a
    rule for every method of that name; and a call of a package function
    without a rule for this package and function, even when there is a
    rule for every method of that name. *)
Theorem visitCall_passes_over offsets w p c :
  (forall nv sel, ast.Fun c = ast.Selected nv sel ->
     (forall path name u, types.Recv nv <> types.Named path name u) ->
     visitCall offsets w p c = Some []) /\
  (forall path sel, ast.Fun c = ast.Qualified path sel ->
     offsets !! {| pkg := path; typ := ""; fun_ := sel |} = None ->
     visitCall offsets w p c = Some []).
Proof.
  unfold visitCall, comma_ok. split.
  - intros nv sel -> Hr. destruct (types.Recv nv) as [|pkg_ name u| | | |]; try done.
    by destruct (Hr pkg_ name u).
  - intros path sel -> ->. done.
Qed.

(** * Further properties of the selector registry *)

Lemma funcOffset_Set_cases v :
  (exists pkg typ fn digits,
     rule_reading v pkg typ fn digits /\ decimal digits <= strconv.maxInt /\
     forall o, funcOffset_Set o v =
       (<[ {| pkg := pkg; typ := typ; fun_ := fn |} := decimal digits ]> o, None)) \/
  (exists e, forall o, funcOffset_Set o v = (o, Some e)).
Proof.
  destruct (rule_form_dec v) as [(pkg & typ & fn & digits & Hr)|Hno].
  - destruct (Z.ltb_spec strconv.maxInt (decimal digits)) as [Hlt|Hle].
    + right. eexists. intros o. rewrite (funcOffset_Set_reading _ _ _ _ _ _ Hr).
      by destruct (Z.ltb_spec strconv.maxInt (decimal digits)); [|lia].
    + left. exists pkg, typ, fn, digits. split; [done|]. split; [done|]. intros o.
      rewrite (funcOffset_Set_reading _ _ _ _ _ _ Hr).
      by destruct (Z.ltb_spec strconv.maxInt (decimal digits)); [lia|].
  - right. eexists. intros o. by rewrite (funcOffset_Set_no_form _ _ Hno).
Qed.

Lemma rule_parts_same_head s P T F D P' T' F' D' :
  rule_parts s P T F D -> rule_parts s P' T' F' D' ->
  P ++ opt_type T = P' ++ opt_type T' /\ F = F' /\ D = D'.
Proof.
  intros (-> & HP & HT & HF & HcF & HD & HcD) (E & HP' & HT' & HF' & HcF' & HD' & HcD').
  rewrite !app_assoc in E.
  apply split_at_last in E as [E1 E2].
  - apply split_at_last in E2 as [-> ->]; try by eapply forallb_not_in. done.
  - apply not_elem_of_app. split; [by eapply forallb_not_in|].
    apply not_elem_of_cons. split; [done|by eapply forallb_not_in].
  - apply not_elem_of_app. split; [by eapply forallb_not_in|].
    apply not_elem_of_cons. split; [done|by eapply forallb_not_in].
Qed.

Lemma rule_form_same_head v p t f d p' t' f' d' :
  rule_form v p t f d -> rule_form v p' t' f' d' ->
  p +:+ opt_type_text t = p' +:+ opt_type_text t' /\ f = f' /\ d = d'.
Proof.
  intros H H'. apply rule_form_parts in H, H'.
  destruct (rule_parts_same_head _ _ _ _ _ _ _ _ _ H H') as (E & ? & ?).
  repeat split; try by apply to_bytes_inj.
  apply to_bytes_inj. by rewrite !to_bytes_app, !to_bytes_opt_type.
Qed.

Lemma rule_reading_typed v pkg typ fn digits :
  rule_form v pkg typ fn digits -> typ <> "" -> rule_reading v pkg typ fn digits.
Proof. intros H Ht. by split. Qed.

Lemma rule_reading_generic fn digits :
  fn <> "" -> forallb (none_of ["."%char]) (to_bytes fn) = true ->
  digits <> "" -> forallb is_digit (to_bytes digits) = true ->
  rule_reading ("." +:+ fn +:+ "=" +:+ digits) "" "" fn digits.
Proof.
  intros Hf Hcf Hd Hcd.
  assert (rule_form ("." +:+ fn +:+ "=" +:+ digits) "" "" fn digits) as H
    by (by repeat split).
  split; [done|]. intros _ p' t' f' d' H'.
  destruct (rule_form_same_head _ _ _ _ _ _ _ _ _ H H') as (E & _ & _).
  apply (f_equal to_bytes) in E. rewrite !to_bytes_app, !to_bytes_opt_type in E.
  simpl in E. symmetry in E. apply app_eq_nil in E as [_ E].
  apply to_bytes_nil. by destruct (to_bytes t').
Qed.

Lemma rule_reading_package path fn digits :
  forallb (fun c => negb (is_newline c)) (to_bytes path) = true ->
  no_type_segment path ->
  fn <> "" -> forallb (none_of ["."%char]) (to_bytes fn) = true ->
  digits <> "" -> forallb is_digit (to_bytes digits) = true ->
  rule_reading (path +:+ "." +:+ fn +:+ "=" +:+ digits) path "" fn digits.
Proof.
  intros Hp Hseg Hf Hcf Hd Hcd.
  assert (rule_form (path +:+ "." +:+ fn +:+ "=" +:+ digits) path "" fn digits) as H
    by (by repeat split).
  split; [done|]. intros _ p' t' f' d' H'.
  destruct (rule_form_same_head _ _ _ _ _ _ _ _ _ H H') as (E & _ & _).
  destruct t' as [|c t']; [done|].
  apply (Hseg p' (String c t')); [|apply H'].
  apply (f_equal to_bytes) in E. rewrite !to_bytes_app, !to_bytes_opt_type in E.
  simpl in E. rewrite app_nil_r in E.
  apply to_bytes_inj. by rewrite !to_bytes_app.
Qed.

(** X8. [funcOffset.Set] keeps the invariant of the rule table: every
    selector in it has a function that is not empty and has no [.], a type
    without [.] and [/] and a package without newline, and every offset is
    not negative and in the range of [int]. *)
Theorem funcOffset_Set_keeps_table_invariant o v :
  table_inv o -> table_inv (funcOffset_Set o v).1.
Proof.
  intros Ho. destruct (funcOffset_Set_cases v)
    as [(pkg & typ & fn & digits & [Hf _] & Hle & E)|[e E]]; rewrite E; [|done].
  apply map_Forall_insert_2; [|done].
  destruct Hf as (_ & Hp & Ht & Hfn & Hcf & _ & Hd).
  split; [by repeat split|]. split; [by apply decimal_nonneg|done].
Qed.

(** X9. Giving the same rule twice is the same as giving it once: the
    same map and the same error. *)
Theorem funcOffset_Set_idempotent o v :
  funcOffset_Set (funcOffset_Set o v).1 v = funcOffset_Set o v.
Proof.
  destruct (funcOffset_Set_cases v)
    as [(pkg & typ & fn & digits & Hr & Hle & E)|[e E]]; rewrite !E; simpl.
  - by rewrite insert_insert_eq.
  - done.
Qed.

(** X10. Two rules can be given in either order with the same map,
    unless both are accepted (they read as rules and their offsets are in
    the range of [int]) for the same selector with different offsets; then
    the maps differ. *)
Theorem funcOffset_Set_order o v1 v2 :
  (funcOffset_Set (funcOffset_Set o v1).1 v2).1 =
  (funcOffset_Set (funcOffset_Set o v2).1 v1).1 <->
  (forall pkg typ fn d1 d2,
     rule_reading v1 pkg typ fn d1 -> rule_reading v2 pkg typ fn d2 ->
     decimal d1 <= strconv.maxInt -> decimal d2 <= strconv.maxInt ->
     decimal d1 = decimal d2).
Proof.
  split.
  - intros Heq pkg typ fn d1 d2 Hr1 Hr2 Hle1 Hle2.
    assert (forall o', funcOffset_Set o' v1 =
              (<[ {| pkg := pkg; typ := typ; fun_ := fn |} := decimal d1 ]> o', None)) as E1.
    { intros o'. rewrite (funcOffset_Set_reading _ _ _ _ _ _ Hr1).
      by destruct (Z.ltb_spec strconv.maxInt (decimal d1)); [lia|]. }
    assert (forall o', funcOffset_Set o' v2 =
              (<[ {| pkg := pkg; typ := typ; fun_ := fn |} := decimal d2 ]> o', None)) as E2.
    { intros o'. rewrite (funcOffset_Set_reading _ _ _ _ _ _ Hr2).
      by destruct (Z.ltb_spec strconv.maxInt (decimal d2)); [lia|]. }
    rewrite !E1, !E2 in Heq. simpl in Heq. rewrite ?E1, ?E2 in Heq. simpl in Heq.
    apply (f_equal (fun m => m !! {| pkg := pkg; typ := typ; fun_ := fn |})) in Heq.
    rewrite !lookup_insert_eq in Heq. congruence.
  - intros Hsame.
    destruct (funcOffset_Set_cases v1)
      as [(p1 & t1 & f1 & d1 & Hr1 & Hle1 & E1)|[e1 E1]];
    destruct (funcOffset_Set_cases v2)
      as [(p2 & t2 & f2 & d2 & Hr2 & Hle2 & E2)|[e2 E2]];
      rewrite !E1, !E2; simpl; rewrite ?E1, ?E2; simpl; try done.
    destruct (decide ({| pkg := p1; typ := t1; fun_ := f1 |} =
                      {| pkg := p2; typ := t2; fun_ := f2 |})) as [[= -> -> ->]|Hne].
    + by rewrite (Hsame _ _ _ _ _ Hr1 Hr2).
    + by apply insert_insert_ne.
Qed.

(** X11. A rule [.<func>=<offset>] applies to the method of that name of
    every named receiver type: after [Set], the callback validates such a
    call with the offset written in the rule. *)
Theorem generic_rule_applies o w p c nv fn digits path name u :
  fn <> "" -> forallb (none_of ["."%char]) (to_bytes fn) = true ->
  digits <> "" -> forallb is_digit (to_bytes digits) = true ->
  decimal digits <= strconv.maxInt ->
  ast.Fun c = ast.Selected nv fn ->
  types.Recv nv = types.Named path name u ->
  visitCall (funcOffset_Set o ("." +:+ fn +:+ "=" +:+ digits)).1 w p c =
  argsCorrect w p (types.SelectionString nv) (decimal digits) c.
Proof.
  intros Hf Hcf Hd Hcd Hle Hc Hr.
  rewrite (funcOffset_Set_reading _ _ _ _ _ _ (rule_reading_generic fn digits Hf Hcf Hd Hcd)).
  destruct (Z.ltb_spec strconv.maxInt (decimal digits)); [lia|]. simpl.
  unfold visitCall, comma_ok. rewrite Hc, Hr. simpl. by rewrite lookup_insert_eq.
Qed.

(** X12. A rule [<path>.<func>=<offset>] for a package path of which no
    part reads as a type applies to the function of that package: after
    [Set], the callback validates a call of it with the offset written in
    the rule, under the name [<path>.<func>]. *)
Theorem package_rule_applies o w p c path fn digits :
  forallb (fun c => negb (is_newline c)) (to_bytes path) = true ->
  no_type_segment path ->
  fn <> "" -> forallb (none_of ["."%char]) (to_bytes fn) = true ->
  digits <> "" -> forallb is_digit (to_bytes digits) = true ->
  decimal digits <= strconv.maxInt ->
  ast.Fun c = ast.Qualified path fn ->
  visitCall (funcOffset_Set o (path +:+ "." +:+ fn +:+ "=" +:+ digits)).1 w p c =
  argsCorrect w p (path +:+ "." +:+ fn) (decimal digits) c.
Proof.
  intros Hp Hseg Hf Hcf Hd Hcd Hle Hc.
  rewrite (funcOffset_Set_reading _ _ _ _ _ _
             (rule_reading_package path fn digits Hp Hseg Hf Hcf Hd Hcd)).
  destruct (Z.ltb_spec strconv.maxInt (decimal digits)); [lia|]. simpl.
  unfold visitCall, comma_ok. rewrite Hc. by rewrite lookup_insert_eq.
Qed.

(** X13. When the package path ends in a segment after a [.] that is not
    empty and has neither [.] nor [/], as in [gopkg.in/yaml.v2], the rule
    [<path>.<func>=<offset>] is read as a rule for the method [<func>] of
    the type named by that segment: it is stored under that selector, and
    it changes nothing for the calls of the function of the package. *)
Theorem dotted_package_rule_is_a_method_rule o w p c p1 seg fn digits :
  forallb (fun c => negb (is_newline c)) (to_bytes p1) = true ->
  seg <> "" -> forallb (none_of ["."; "/"]%char) (to_bytes seg) = true ->
  fn <> "" -> forallb (none_of ["."%char]) (to_bytes fn) = true ->
  digits <> "" -> forallb is_digit (to_bytes digits) = true ->
  decimal digits <= strconv.maxInt ->
  funcOffset_Set o ((p1 +:+ "." +:+ seg) +:+ "." +:+ fn +:+ "=" +:+ digits) =
    (<[ {| pkg := p1; typ := seg; fun_ := fn |} := decimal digits ]> o, None) /\
  (ast.Fun c = ast.Qualified (p1 +:+ "." +:+ seg) fn ->
   visitCall (funcOffset_Set o ((p1 +:+ "." +:+ seg) +:+ "." +:+ fn +:+ "=" +:+ digits)).1 w p c =
   visitCall o w p c).
Proof.
  intros Hp Hs Hcs Hf Hcf Hd Hcd Hle.
  assert (rule_reading ((p1 +:+ "." +:+ seg) +:+ "." +:+ fn +:+ "=" +:+ digits)
            p1 seg fn digits) as Hr.
  { apply rule_reading_typed; [|done]. repeat split; try done.
    apply to_bytes_inj. rewrite !to_bytes_app, to_bytes_opt_type.
    destruct seg; [done|]. simpl. by rewrite <- !app_assoc. }
  rewrite (funcOffset_Set_reading _ _ _ _ _ _ Hr).
  destruct (Z.ltb_spec strconv.maxInt (decimal digits)); [lia|]. simpl.
  split; [done|]. intros Hc. unfold visitCall, comma_ok. rewrite Hc.
  rewrite lookup_insert_ne; [done|]. intros [= _ E]. done.
Qed.

(** X14. [typeWhitelist.Set] only adds: it keeps the types that are
    registered, and a whitelist that maps to [true] only stays so. *)
Theorem typeWhitelist_Set_only_adds w v :
  (forall path name, registered w path name ->
     registered (typeWhitelist_Set w v).1 path name) /\
  (forall p a, whitelistedArg w p a -> whitelistedArg (typeWhitelist_Set w v).1 p a) /\
  (whitelist_inv w -> whitelist_inv (typeWhitelist_Set w v).1).
Proof.
  assert (forall path name, registered w path name ->
            registered (typeWhitelist_Set w v).1 path name) as Hreg.
  { intros path name Hr. unfold registered in *.
    destruct (whitelist_form_dec v) as [(pkg & typ & Hf)|Hno].
    - rewrite (typeWhitelist_Set_form _ _ _ _ Hf). simpl.
      rewrite lookup_insert. by case_decide.
    - by rewrite (typeWhitelist_Set_no_form _ _ Hno). }
  split; [done|]. split.
  - intros p a. unfold whitelistedArg.
    inversion 1 as [path name u Hr|path name u Hr]; constructor; by apply Hreg.
  - intros Hw. destruct (whitelist_form_dec v) as [(pkg & typ & Hf)|Hno].
    + rewrite (typeWhitelist_Set_form _ _ _ _ Hf). simpl.
      by apply map_Forall_insert_2.
    + by rewrite (typeWhitelist_Set_no_form _ _ Hno).
Qed.

(** X15. After [typeWhitelist.Set] on [<pkg>.<type>], a call whose only
    relevant argument is of the named type [<type>] of the package
    [<pkg>], or a pointer to it, gets no diagnostic. *)
Theorem whitelisted_after_Set w v pkg typ p name offset c a u :
  whitelist_form v pkg typ ->
  types.Typ (TypesOf p a) = Some (types.Named (Some pkg) typ u) \/
  types.Typ (TypesOf p a) = Some (types.Pointer (types.Named (Some pkg) typ u)) ->
  0 <= offset ->
  relevant offset c = [a] ->
  isWhitelisted (typeWhitelist_Set w v).1 p a = Some true /\
  argsCorrect (typeWhitelist_Set w v).1 p name offset c = Some [].
Proof.
  intros Hf Ht H0 E.
  assert (isWhitelisted (typeWhitelist_Set w v).1 p a = Some true) as Hw.
  { rewrite (typeWhitelist_Set_form _ _ _ _ Hf). simpl.
    apply isWhitelisted_iff. unfold whitelistedArg.
    destruct Ht as [-> | ->]; constructor; apply lookup_insert_eq. }
  split; [done|].
  rewrite argsCorrect_relevant, E, Hw;
    [done|done|apply relevant_nonempty_lt; by rewrite E].
Qed.

(** * The previous version and the present one *)

Lemma Previous_checkKey_eq p name offset i a ret :
  Previous.checkKey p name offset i a ret =
  (checkKey p name offset i a,
   ret && bool_decide (checkKey p name offset i a = [])).
Proof.
  unfold Previous.checkKey, checkKey.
  repeat (match goal with |- context [match ?x with _ => _ end] => destruct x end);
    simpl; by rewrite ?andb_true_r, ?andb_false_r.
Qed.

Lemma Previous_checkKeys_eq p name offset i l ret :
  Previous.checkKeys p name offset i l ret =
  (checkKeys p name offset i l,
   ret && bool_decide (checkKeys p name offset i l = [])).
Proof.
  revert i ret. induction l as [|a l IH]; intros i ret; simpl.
  - by rewrite andb_true_r.
  - rewrite Previous_checkKey_eq, IH. f_equal.
    destruct (checkKey p name offset i a) as [|d ds]; simpl.
    + by rewrite andb_true_r.
    + by rewrite andb_false_r.
Qed.

Lemma Previous_argsCorrect_eq p name offset c :
  0 <= offset ->
  Previous.argsCorrect p name offset c =
  Some (checkKeys p name offset 0 (relevant offset c),
        bool_decide (checkKeys p name offset 0 (relevant offset c) = [])).
Proof.
  intros H0. unfold Previous.argsCorrect.
  destruct (Z.leb_spec (len (ast.Args c)) offset) as [Hle|Hlt].
  - by rewrite relevant_nil.
  - rewrite slice_from_relevant by lia. simpl. by rewrite Previous_checkKeys_eq.
Qed.

(** X16. The previous [argsCorrect] returns true exactly when it reports
    nothing. *)
Theorem Previous_argsCorrect_result p name offset c ds ret :
  Previous.argsCorrect p name offset c = Some (ds, ret) ->
  (ret = true <-> ds = []).
Proof.
  unfold Previous.argsCorrect.
  destruct (len (ast.Args c) <=? offset); [by intros [= <- <-]|].
  destruct (slice_from (ast.Args c) offset) as [rest|]; [|done]. simpl.
  rewrite Previous_checkKeys_eq. intros [= <- <-]. simpl.
  by rewrite bool_decide_eq_true.
Qed.

(** X17. Where the two versions report the same. When every argument of
    the call is plain (not whitelisted, not of a type without a package),
    every offset of the table is not negative and less than the number of
    arguments of the call and, for a method call, even, the callback does
    what the previous callback does: the same reports, or a panic of both
    in the selector of a receiver type without a package. *)
Theorem versions_report_the_same offsets w p c :
  Forall (plainArg w p) (ast.Args c) ->
  (forall sel n, offsets !! sel = Some n ->
     0 <= n < len (ast.Args c) /\
     (forall nv s, ast.Fun c = ast.Selected nv s -> Z.even n = true)) ->
  visitCall offsets w p c = Previous.visitCall offsets p c.
Proof.
  intros Hall Hoff.
  assert (forall name n, 0 <= n < len (ast.Args c) ->
            argsCorrect w p name n c =
            if negb (Z.rem (len (ast.Args c) - n) 2 =? 0)
            then Some [arityDiag c name]
            else fst <$> Previous.argsCorrect p name n c) as Hsame.
  { intros name n Hn.
    rewrite argsCorrect_relevant, Previous_argsCorrect_eq by lia.
    assert (Forall (plainArg w p) (relevant n c)) as Hrel.
    { unfold relevant. by apply Forall_drop. }
    rewrite <- len_relevant, rem2_odd by lia.
    apply (firstWhitelisted_None w p 0) in Hrel as Hf. rewrite Hf.
    destruct (relevant n c) as [|a [|b l]] eqn:E; try done.
    inversion Hrel as [|? ? Ha _]; subst. apply isWhitelisted_false in Ha.
    by rewrite Ha. }
  unfold visitCall, Previous.visitCall, comma_ok.
  destruct (ast.Fun c) as [|path sel|nv sel] eqn:Hc; [done| |].
  - destruct (offsets !! _) as [n|] eqn:En; simpl; [|done].
    destruct (Hoff _ _ En) as [Hn _]. by apply Hsame.
  - destruct (isNamed (types.Recv nv)) as [[pkg_ name]|]; [|done].
    assert (forall n sel', offsets !! sel' = Some n ->
              argsCorrect w p (types.SelectionString nv) n c =
              if negb (Z.rem (len (ast.Args c)) 2 =? 0)
              then Some [ {| Pos := ast.CallPos c;
                             Message := msgArity (len (ast.Args c)) (types.SelectionString nv) |} ]
              else fst <$> Previous.argsCorrect p (types.SelectionString nv) n c) as Hm.
    { intros n sel' En. destruct (Hoff _ _ En) as [Hn He].
      specialize (He nv sel eq_refl). rewrite (Hsame _ n Hn).
      replace (Z.rem (len (ast.Args c) - n) 2 =? 0) with (Z.rem (len (ast.Args c)) 2 =? 0);
        [done|].
      pose proof (len_nonneg (ast.Args c)).
      rewrite !Z.rem_mod_nonneg, !Zmod_even, Z.even_sub, He by lia.
      by destruct (Z.even (len (ast.Args c))). }
    destruct (offsets !! {| pkg := ""; typ := ""; fun_ := sel |}) as [n|] eqn:En; simpl.
    + by eapply Hm.
    + destruct pkg_ as [path|]; simpl; [|done].
      destruct (offsets !! {| pkg := path; typ := name; fun_ := sel |}) as [n|] eqn:En';
        simpl; [|done].
      by eapply Hm.
Qed.

(** X18. Where they differ for methods: the previous callback tests the
    parity of all arguments of a method call, not of those after the
    offset. With an odd offset, a method call with an even, positive number
    of relevant arguments, all of them plain, gets the arity diagnostic
    from the previous callback and the verdicts on its keys from the
    present one. *)
Theorem previous_method_arity_ignores_offset offsets w p c nv sel path name u n :
  ast.Fun c = ast.Selected nv sel ->
  types.Recv nv = types.Named path name u ->
  offsets !! {| pkg := ""; typ := ""; fun_ := sel |} = Some n ->
  0 <= n < len (ast.Args c) -> Z.odd n = true ->
  Nat.even (length (relevant n c)) = true ->
  Forall (plainArg w p) (relevant n c) ->
  Previous.visitCall offsets p c =
    Some [ {| Pos := ast.CallPos c;
              Message := pretty (len (ast.Args c)) +:+ " args passed to "
                           +:+ types.SelectionString nv +:+ "; must be even" |} ] /\
  visitCall offsets w p c =
    Some (checkKeys p (types.SelectionString nv) n 0 (relevant n c)).
Proof.
  intros Hc Hr En Hn Hodd Hev Hall.
  unfold visitCall, Previous.visitCall, comma_ok. rewrite Hc, Hr. simpl.
  rewrite En. simpl. split.
  - replace (Z.rem (len (ast.Args c)) 2 =? 0) with false; [done|].
    pose proof (len_relevant n c ltac:(lia) ltac:(lia)) as Hl.
    assert (Z.even (len (relevant n c)) = true) as Hev'.
    { unfold len. by rewrite <- Z.negb_odd, Zodd_of_nat, Nat.negb_odd. }
    rewrite Hl, Z.even_sub, <- (Z.negb_odd n), Hodd in Hev'. simpl in Hev'.
    pose proof (len_nonneg (ast.Args c)).
    rewrite Z.rem_mod_nonneg, Zmod_even by lia.
    destruct (Z.even (len (ast.Args c))); done.
  - apply argsCorrect_keys; [lia| |by rewrite <- Nat.negb_even, Hev|done].
    intros E. pose proof (len_relevant n c ltac:(lia) ltac:(lia)) as Hl.
    rewrite E in Hl. unfold len in Hl, Hn. simpl in Hl. lia.
Qed.

(** X19. Where they differ for package functions: the previous callback
    tests the parity before it looks whether there are relevant arguments.
    A call of a package function with fewer arguments than the offset, by an
    odd number, gets the arity diagnostic from the previous callback and
    nothing from the present one. *)
Theorem previous_reports_short_calls offsets w p c path sel n :
  ast.Fun c = ast.Qualified path sel ->
  offsets !! {| pkg := path; typ := ""; fun_ := sel |} = Some n ->
  len (ast.Args c) < n -> Z.odd (n - len (ast.Args c)) = true ->
  Previous.visitCall offsets p c =
    Some [ {| Pos := ast.CallPos c;
              Message := pretty (len (ast.Args c)) +:+ " args passed to "
                           +:+ (path +:+ "." +:+ sel) +:+ "; must be even" |} ] /\
  visitCall offsets w p c = Some [].
Proof.
  intros Hc En Hlt Hodd.
  unfold visitCall, Previous.visitCall, comma_ok. rewrite Hc, En. simpl. split.
  - replace (Z.rem (len (ast.Args c) - n) 2 =? 0) with false; [done|].
    symmetry. apply Z.eqb_neq. rewrite Z.rem_mod_eq_0 by lia.
    rewrite Zmod_odd.
    replace (len (ast.Args c) - n) with (- (n - len (ast.Args c))) by lia.
    by rewrite Z.odd_opp, Hodd.
  - apply argsCorrect_short. lia.
Qed.

(** ** Instances *)

Import TestAnalysis.

Ltac plain_args :=
  repeat (apply Forall_cons; split; [apply isWhitelisted_false; reflexivity|]);
  apply Forall_nil; done.

Ltac with_package w :=
  repeat (apply Forall_cons; split;
          [let H := fresh in
           intros H; apply (isWhitelisted_panics w) in H; vm_compute in H; discriminate H|]);
  apply Forall_nil; done.

Lemma no_relevant_argument_witness :
  len (ast.Args (call X [str "a"])) <= 1 /\
  relevant 1 (call X [str "a"]) = [] /\
  argsCorrect whitelistedTypes (pass [str "a"]) "a/b.X" 1 (call X [str "a"]) = Some [].
Proof.
  split; [by vm_compute|].
  apply (no_relevant_argument_no_diagnostic whitelistedTypes (pass [str "a"]) "a/b.X" 1
           (call X [str "a"])).
  by vm_compute.
Defined.

(** [l.Log("foo", "bar", "baz")] gets the arity diagnostic; [l.Log(err)],
    with [err] of type [error], panics. *)
Lemma odd_relevant_count_witness :
  argsCorrect whitelistedTypes (pass [str "foo"; str "bar"; str "baz"]) "Log" 0
    (call Log [str "foo"; str "bar"; str "baz"]) =
    Some [ {| Pos := 100; Message := "3 args passed to Log; must be even" |} ] /\
  argsCorrect whitelistedTypes (pass [err]) "Log" 0 (call Log [err]) = None.
Proof.
  split.
  - refine (proj1 (proj2 (odd_relevant_count_one_arity_diagnostic whitelistedTypes
             (pass [str "foo"; str "bar"; str "baz"]) "Log" 0
             (call Log [str "foo"; str "bar"; str "baz"]) _ _ _)) _).
    + lia.
    + reflexivity.
    + intros (a & E & _). vm_compute in E. discriminate E.
    + intros (a & E & _). vm_compute in E. discriminate E.
  - refine (proj2 (proj2 (odd_relevant_count_one_arity_diagnostic whitelistedTypes
             (pass [err]) "Log" 0 (call Log [err]) _ _ _)) _).
    + lia.
    + reflexivity.
    + intros (a & E & Ha). apply isWhitelisted_iff in Ha.
      injection E as <-. vm_compute in Ha. discriminate Ha.
    + exists (ast.mkExpr 1 101). split; [reflexivity|].
      apply (isWhitelisted_panics whitelistedTypes). reflexivity.
Defined.

Lemma sole_whitelisted_argument_witness :
  let tvs := [str "woo"; pairs] in
  len (ast.Args (call X tvs)) - 1 = 1 /\
  argsCorrect whitelistedTypes (pass tvs) "a/b.X" 1 (call X tvs) = Some [].
Proof.
  intros tvs.
  apply (sole_whitelisted_argument_no_diagnostic whitelistedTypes (pass tvs) "a/b.X" 1
           (call X tvs) (ast.mkExpr 2 102)).
  - lia.
  - reflexivity.
  - apply isWhitelisted_iff. reflexivity.
Defined.

Lemma whitelisted_among_several_witness :
  let tvs := [str "foo"; str "key/vales"; pairs] in
  exists i, argsCorrect whitelistedTypes (pass tvs) "a/b.X" 1 (call X tvs) =
              Some [mixingDiag (call X tvs) "a/b.X" i].
Proof.
  intros tvs.
  refine (whitelisted_among_several_arguments whitelistedTypes (pass tvs) "a/b.X" 1
            (call X tvs) _ _ _ _).
  - lia.
  - vm_compute. lia.
  - apply Exists_cons_tl, Exists_cons_hd, isWhitelisted_iff. reflexivity.
  - apply scanSafe_no_panic. with_package whitelistedTypes.
Defined.

(** [b.X("foo", "key/vales", p)] gets the diagnostic for the argument 2;
    [b.X("a", err, p)] panics at [err]. *)
Lemma mixing_diagnostic_witness :
  (let tvs := [str "foo"; str "key/vales"; pairs] in
   exists (i : nat) (a : ast.Expr),
     relevant 1 (call X tvs) !! i = Some a /\
     index (ast.Args (call X tvs)) (Z.of_nat i + 1) = Some a /\
     whitelistedArg whitelistedTypes (pass tvs) a /\
     (forall j b, (j < i)%nat -> relevant 1 (call X tvs) !! j = Some b ->
                  ~ whitelistedArg whitelistedTypes (pass tvs) b) /\
     argsCorrect whitelistedTypes (pass tvs) "a/b.X" 1 (call X tvs) =
       Some [ {| Pos := 100;
                 Message := "arg " +:+ pretty (Z.of_nat i + 1) +:+ " to " +:+ "a/b.X"
                              +:+ " is a whitelisted type; should pass one or none" |} ]) /\
  argsCorrect whitelistedTypes (pass [str "a"; err; pairs]) "a/b.X" 1
    (call X [str "a"; err; pairs]) = None.
Proof.
  split.
  - intros tvs.
    refine (proj1 (mixing_diagnostic_at_full_index whitelistedTypes (pass tvs) "a/b.X" 1
                     (call X tvs) _ _ _ _) _).
    + lia.
    + reflexivity.
    + vm_compute. lia.
    + apply Exists_cons_tl, Exists_cons_hd, isWhitelisted_iff. reflexivity.
    + apply scanSafe_no_panic. with_package whitelistedTypes.
  - refine (proj2 (mixing_diagnostic_at_full_index whitelistedTypes
                     (pass [str "a"; err; pairs]) "a/b.X" 1
                     (call X [str "a"; err; pairs]) _ _ _ _) _).
    + lia.
    + reflexivity.
    + vm_compute. lia.
    + apply Exists_cons_tl, Exists_cons_hd, isWhitelisted_iff. reflexivity.
    + intros Hsafe.
      destruct (Hsafe 0%nat (ast.mkExpr 2 102) eq_refl) as (j & b & Hj & _); [|lia].
      apply (isWhitelisted_panics whitelistedTypes). reflexivity.
Defined.

(** [l.Log("k")] with a rule for [a.logger.Log] beside the rule [.Log=0]:
    the offset 0 is used. [err.Error()] without a rule [.Error]: building
    the selector of the receiver type panics. *)
Lemma generic_selector_witness :
  visitCall (<[ {| pkg := "a"; typ := "logger"; fun_ := "Log" |} := 1 ]> offsets)
    whitelistedTypes (pass [str "k"]) (call Log [str "k"]) =
  argsCorrect whitelistedTypes (pass [str "k"])
    "method (a.logger) Log(inputs ...interface{})" 0 (call Log [str "k"]) /\
  visitCall offsets whitelistedTypes (pass []) (call ErrorMethod []) = None.
Proof.
  split.
  - refine (proj1 (generic_selector_before_concrete
             (<[ {| pkg := "a"; typ := "logger"; fun_ := "Log" |} := 1 ]> offsets)
             whitelistedTypes (pass [str "k"]) (call Log [str "k"])
             (types.mkSelection logger "method (a.logger) Log(inputs ...interface{})")
             "Log" (Some "a") "logger" (types.Predeclared types.Int) _ _) 0 _).
    + reflexivity.
    + reflexivity.
    + by vm_compute.
  - refine (proj2 (proj2 (generic_selector_before_concrete offsets
             whitelistedTypes (pass []) (call ErrorMethod [])
             (types.mkSelection types.universeError "method (error) Error() string")
             "Error" None "error" (types.Other "interface{Error() string}") _ _)) _ _).
    + reflexivity.
    + reflexivity.
    + reflexivity.
    + by vm_compute.
Defined.

Lemma key_validation_witness :
  let tvs := two_bad_keys in
  (exists verdicts : list (list Diagnostic),
     argsCorrect whitelistedTypes (pass tvs) "a/b.X" 1 (call X tvs) = Some (mjoin verdicts) /\
     length verdicts = length (relevant 1 (call X tvs)) /\
     forall (i : nat) (a : ast.Expr),
       relevant 1 (call X tvs) !! i = Some a ->
       exists ds, verdicts !! i = Some ds /\
         if Nat.even i
         then keyVerdict "a/b.X" (Z.of_nat i + 1) a (TypesOf (pass tvs) a) ds
         else ds = []) /\
  (exists w' p' name' offset' c' d1 d2,
     argsCorrect w' p' name' offset' c' = Some [d1; d2]).
Proof.
  intros tvs.
  apply (key_validation_by_position whitelistedTypes (pass tvs) "a/b.X" 1 (call X tvs)).
  - lia.
  - by vm_compute.
  - reflexivity.
  - plain_args.
Defined.

Lemma key_without_type_information_witness :
  let tvs := [nothing; str "v"] in
  checkKey (pass tvs) "Log" 0 (len ([] : list ast.Expr)) (ast.mkExpr 1 101) = [] /\
  argsCorrect whitelistedTypes (pass tvs) "Log" 0 (call Log tvs) =
    Some (checkKeys (pass tvs) "Log" 0 0 [] ++
          checkKeys (pass tvs) "Log" 0 (len ([] : list ast.Expr) + 1) [ast.mkExpr 2 102]).
Proof.
  intros tvs.
  apply (key_without_type_information_accepted whitelistedTypes (pass tvs) "Log" 0
           (call Log tvs) [] (ast.mkExpr 1 101) [ast.mkExpr 2 102]).
  - lia.
  - reflexivity.
  - reflexivity.
  - reflexivity.
  - plain_args.
  - reflexivity.
  - reflexivity.
Defined.

Lemma funcOffset_Set_witness :
  (funcOffset_Set (<[ {| pkg := ""; typ := ""; fun_ := "Log" |} := 0 ]> ∅) ".Log=2").1 =
    <[ {| pkg := ""; typ := ""; fun_ := "Log" |} := decimal "2" ]> ∅ /\
  (funcOffset_Set (<[ {| pkg := ""; typ := ""; fun_ := "Log" |} := 0 ]> ∅) ".Log=2").1
    !! {| pkg := ""; typ := ""; fun_ := "Log" |} = Some (decimal "2").
Proof.
  refine (proj2 (proj2 (proj2 (funcOffset_Set_accepts_exactly ∅ ".Log=0")))
            ".Log=2" _ _ "" "" "Log" "0" "2" _ _ _ _).
  - reflexivity.
  - apply rule_reading_of_match. reflexivity.
  - rewrite (surjective_pairing (funcOffset_Set _ _)). f_equal; by vm_compute.
  - apply rule_reading_of_match. reflexivity.
Defined.

Lemma typeWhitelist_Set_witness :
  typeWhitelist_Set ∅ "a/b.Pairs" = (<[ {| wpkg := "a/b"; wtyp := "Pairs" |} := true ]> ∅, None).
Proof.
  apply (proj1 (typeWhitelist_Set_accepts_exactly ∅ "a/b.Pairs")).
  exists "a/b", "Pairs". split; [|reflexivity].
  apply whitelist_form_of_match. reflexivity.
Defined.

(** ** Instances of the further properties *)

(** [l.Log("err", err)] panics in the scan. *)
Lemma argsCorrect_panics_witness :
  argsCorrect whitelistedTypes (pass [str "err"; err]) "Log" 0 (call Log [str "err"; err]) = None.
Proof.
  apply (proj2 (argsCorrect_panics_iff whitelistedTypes (pass [str "err"; err]) "Log" 0
                  (call Log [str "err"; err]) ltac:(lia))).
  right. split; [reflexivity|].
  exists 1%nat, (ast.mkExpr 2 102). split; [reflexivity|]. split.
  - apply (isWhitelisted_panics whitelistedTypes). reflexivity.
  - intros [|j] b Hj Hb; [|lia]. injection Hb as <-.
    apply isWhitelisted_false. reflexivity.
Defined.

Lemma visitCall_returns_witness :
  is_Some (visitCall offsets whitelistedTypes (pass [str "k"]) (call Log [str "k"])).
Proof.
  apply (visitCall_returns offsets whitelistedTypes (pass [str "k"]) (call Log [str "k"])).
  - apply funcOffset_SetAll_nonneg, map_Forall_empty.
  - with_package whitelistedTypes.
  - intros nv sel name u E Hr. injection E as <- <-. discriminate Hr.
Defined.

Lemma argsCorrect_accepts_witness :
  let tvs := [str "k"; int "1"] in
  argsCorrect whitelistedTypes (pass tvs) "Log" 0 (call Log tvs) = Some [] <->
    relevant 0 (call Log tvs) = [] \/
    (exists a, relevant 0 (call Log tvs) = [a] /\ whitelistedArg whitelistedTypes (pass tvs) a) \/
    (Nat.even (length (relevant 0 (call Log tvs))) = true /\
     Forall (plainArg whitelistedTypes (pass tvs)) (relevant 0 (call Log tvs)) /\
     forall i a, relevant 0 (call Log tvs) !! i = Some a -> Nat.even i = true ->
       acceptableKey (TypesOf (pass tvs) a)).
Proof.
  intros tvs.
  apply (argsCorrect_accepts_iff whitelistedTypes (pass tvs) "Log" 0 (call Log tvs)). lia.
Defined.

Lemma argsCorrect_diagnostics_bound_witness :
  let tvs := two_bad_keys in
  let ds := [ {| Pos := 102;
                 Message := "arg 1 to a/b.X is constant int but should be a constant string" |};
              {| Pos := 104;
                 Message := "arg 3 to a/b.X is expression a.logger but should be a constant string" |} ] in
  (length ds <= Nat.max 1 (length (relevant 1 (call X tvs)) / 2))%nat /\
  (forall d, d ∈ ds ->
     Pos d = ast.CallPos (call X tvs) \/
     exists i a, relevant 1 (call X tvs) !! i = Some a /\ Nat.even i = true /\
                 Pos d = ast.ExprPos a).
Proof.
  intros tvs ds.
  apply (argsCorrect_diagnostics_bound whitelistedTypes (pass tvs) "a/b.X" 1 (call X tvs) ds).
  - lia.
  - by vm_compute.
Defined.

Lemma argsCorrect_reads_keys_only_witness :
  argsCorrect whitelistedTypes (pass [str "a"; str "k"; int "1"]) "a/b.X" 1
    (call X [str "a"; str "k"; int "1"]) =
  argsCorrect whitelistedTypes (pass [int "9"; str "k"; var logger]) "a/b.X" 1
    (call X [str "a"; str "k"; int "1"]).
Proof.
  apply (argsCorrect_reads_keys_only whitelistedTypes
           (pass [str "a"; str "k"; int "1"]) (pass [int "9"; str "k"; var logger])
           "a/b.X" 1 (call X [str "a"; str "k"; int "1"])).
  - lia.
  - intros a Ha.
    change (a ∈ [ast.mkExpr 2 102; ast.mkExpr 3 103]) in Ha.
    apply elem_of_cons in Ha as [->|Ha]; [reflexivity|].
    apply list_elem_of_singleton in Ha as ->. reflexivity.
  - intros i a Hi He.
    change ([ast.mkExpr 2 102; ast.mkExpr 3 103] !! i = Some a) in Hi.
    destruct i as [|[|i]]; [|done..]. injection Hi as <-. reflexivity.
Defined.

(** Without a whitelist: [l.Log(p)] gets the arity diagnostic, [l.Log(err)]
    panics. *)
Lemma sole_argument_without_whitelist_witness :
  argsCorrect ∅ (pass [pairs]) "Log" 0 (call Log [pairs]) =
    Some [arityDiag (call Log [pairs]) "Log"] /\
  argsCorrect ∅ (pass [err]) "Log" 0 (call Log [err]) = None.
Proof.
  split.
  - refine (proj1 (sole_argument_without_whitelist (pass [pairs]) "Log" 0 (call Log [pairs])
                     (ast.mkExpr 1 101) _ _) _).
    + lia.
    + reflexivity.
    + intros H. apply (isWhitelisted_panics ∅) in H. vm_compute in H. discriminate H.
  - refine (proj2 (sole_argument_without_whitelist (pass [err]) "Log" 0 (call Log [err])
                     (ast.mkExpr 1 101) _ _) _).
    + lia.
    + reflexivity.
    + apply (isWhitelisted_panics ∅). reflexivity.
Defined.

Lemma visitCall_passes_over_witness :
  visitCall offsets whitelistedTypes (pass [str "bar"]) (call AddPairs [str "bar"]) = Some [].
Proof.
  refine (proj1 (visitCall_passes_over offsets whitelistedTypes (pass [str "bar"])
                   (call AddPairs [str "bar"])) _ "AddPairs" eq_refl _).
  intros path name u. discriminate.
Defined.

Lemma funcOffset_Set_keeps_table_invariant_witness :
  table_inv (funcOffset_Set ∅ ".Log=0").1.
Proof. apply (funcOffset_Set_keeps_table_invariant ∅ ".Log=0"), map_Forall_empty. Defined.

(** A rule that is out of range and a rule for the same selector: either
    order gives the same map. *)
Lemma funcOffset_Set_order_witness :
  (funcOffset_Set (funcOffset_Set ∅ ".f=99999999999999999999").1 ".f=1").1 =
  (funcOffset_Set (funcOffset_Set ∅ ".f=1").1 ".f=99999999999999999999").1.
Proof.
  apply (proj2 (funcOffset_Set_order ∅ ".f=99999999999999999999" ".f=1")).
  intros pkg typ fn d1 d2 H1 H2 Hle1 Hle2. exfalso.
  assert (rule_reading ".f=99999999999999999999" "" "" "f" "99999999999999999999") as R1
    by (apply rule_reading_of_match; reflexivity).
  destruct (rule_reading_unique _ _ _ _ _ _ _ _ _ H1 R1) as (_ & _ & _ & ->).
  vm_compute in Hle1. by destruct Hle1.
Defined.

Lemma generic_rule_applies_witness :
  visitCall (funcOffset_Set ∅ ("." +:+ "Log" +:+ "=" +:+ "0")).1 whitelistedTypes
    (pass [str "k"]) (call Log [str "k"]) =
  argsCorrect whitelistedTypes (pass [str "k"])
    "method (a.logger) Log(inputs ...interface{})" (decimal "0") (call Log [str "k"]).
Proof.
  apply (generic_rule_applies ∅ whitelistedTypes (pass [str "k"]) (call Log [str "k"])
           (types.mkSelection logger "method (a.logger) Log(inputs ...interface{})")
           "Log" "0" (Some "a") "logger" (types.Predeclared types.Int));
    first [done | reflexivity | by vm_compute].
Defined.

Lemma package_rule_applies_witness :
  visitCall (funcOffset_Set ∅ ("a/b" +:+ "." +:+ "X" +:+ "=" +:+ "1")).1 whitelistedTypes
    (pass [str "a"]) (call X [str "a"]) =
  argsCorrect whitelistedTypes (pass [str "a"]) ("a/b" +:+ "." +:+ "X") (decimal "1")
    (call X [str "a"]).
Proof.
  apply (package_rule_applies ∅ whitelistedTypes (pass [str "a"]) (call X [str "a"])
           "a/b" "X" "1"); try first [done | reflexivity | by vm_compute].
  intros p1 seg E _. exfalso.
  assert ("."%char ∉ to_bytes "a/b") as Hno
    by (apply (forallb_not_in (none_of ["."%char])); reflexivity).
  apply Hno. rewrite E, !to_bytes_app. apply elem_of_app. right. left.
Defined.

Lemma dotted_package_rule_witness :
  funcOffset_Set ∅ (("gopkg.in/yaml" +:+ "." +:+ "v2") +:+ "." +:+ "Marshal" +:+ "=" +:+ "0") =
    (<[ {| pkg := "gopkg.in/yaml"; typ := "v2"; fun_ := "Marshal" |} := decimal "0" ]> ∅, None) /\
  (ast.Fun (call (ast.Qualified "gopkg.in/yaml.v2" "Marshal") [str "k"]) =
     ast.Qualified ("gopkg.in/yaml" +:+ "." +:+ "v2") "Marshal" ->
   visitCall
     (funcOffset_Set ∅ (("gopkg.in/yaml" +:+ "." +:+ "v2") +:+ "." +:+ "Marshal" +:+ "=" +:+ "0")).1
     whitelistedTypes (pass [str "k"])
     (call (ast.Qualified "gopkg.in/yaml.v2" "Marshal") [str "k"]) =
   visitCall ∅ whitelistedTypes (pass [str "k"])
     (call (ast.Qualified "gopkg.in/yaml.v2" "Marshal") [str "k"])).
Proof.
  apply (dotted_package_rule_is_a_method_rule ∅ whitelistedTypes (pass [str "k"])
           (call (ast.Qualified "gopkg.in/yaml.v2" "Marshal") [str "k"])
           "gopkg.in/yaml" "v2" "Marshal" "0");
    first [done | reflexivity | by vm_compute].
Defined.

Lemma typeWhitelist_Set_only_adds_witness :
  registered (typeWhitelist_Set whitelistedTypes "a.T").1 "a/b" "Pairs".
Proof.
  apply (proj1 (typeWhitelist_Set_only_adds whitelistedTypes "a.T")).
  by vm_compute.
Defined.

Lemma whitelisted_after_Set_witness :
  isWhitelisted (typeWhitelist_Set ∅ "a/b.Pairs").1 (pass [str "a"; pairs]) (ast.mkExpr 2 102)
    = Some true /\
  argsCorrect (typeWhitelist_Set ∅ "a/b.Pairs").1 (pass [str "a"; pairs]) "a/b.X" 1
    (call X [str "a"; pairs]) = Some [].
Proof.
  apply (whitelisted_after_Set ∅ "a/b.Pairs" "a/b" "Pairs" (pass [str "a"; pairs]) "a/b.X" 1
           (call X [str "a"; pairs]) (ast.mkExpr 2 102)
           (types.Other "struct{values []interface{}}")).
  - apply whitelist_form_of_match. reflexivity.
  - right. reflexivity.
  - lia.
  - reflexivity.
Defined.

Lemma Previous_argsCorrect_result_witness :
  false = true <->
  [ {| Pos := 101;
       Message := "arg 0 to Log is constant int but should be a constant string" |} ] = [].
Proof.
  apply (Previous_argsCorrect_result (pass [int "1"; str "v"]) "Log" 0
           (call Log [int "1"; str "v"])).
  by vm_compute.
Defined.

Lemma versions_report_the_same_witness :
  let tvs := [str "a"; int "1"; str "v"] in
  visitCall X_from_1 whitelistedTypes (pass tvs) (call X tvs) =
  Previous.visitCall X_from_1 (pass tvs) (call X tvs).
Proof.
  intros tvs.
  apply (versions_report_the_same X_from_1 whitelistedTypes (pass tvs) (call X tvs)).
  - plain_args.
  - intros sel n Hs. unfold X_from_1 in Hs.
    apply lookup_singleton_Some in Hs as [<- <-]. split; [by vm_compute|].
    intros nv s. discriminate.
Defined.

Lemma previous_method_arity_witness :
  let tvs := [var logger; str "k"; str "v"] in
  Previous.visitCall Log_from_1 (pass tvs) (call Log tvs) =
    Some [ {| Pos := 100;
              Message := "3 args passed to method (a.logger) Log(inputs ...interface{}); must be even" |} ] /\
  visitCall Log_from_1 whitelistedTypes (pass tvs) (call Log tvs) =
    Some (checkKeys (pass tvs) "method (a.logger) Log(inputs ...interface{})" 1 0
            (relevant 1 (call Log tvs))).
Proof.
  intros tvs.
  apply (previous_method_arity_ignores_offset Log_from_1 whitelistedTypes (pass tvs)
           (call Log tvs)
           (types.mkSelection logger "method (a.logger) Log(inputs ...interface{})")
           "Log" (Some "a") "logger" (types.Predeclared types.Int) 1).
  - reflexivity.
  - reflexivity.
  - apply lookup_singleton_eq.
  - by vm_compute.
  - reflexivity.
  - reflexivity.
  - plain_args.
Defined.

Lemma previous_reports_short_calls_witness :
  Previous.visitCall X_from_1 (pass []) (call X []) =
    Some [ {| Pos := 100; Message := "0 args passed to a/b.X; must be even" |} ] /\
  visitCall X_from_1 whitelistedTypes (pass []) (call X []) = Some [].
Proof.
  apply (previous_reports_short_calls X_from_1 whitelistedTypes (pass []) (call X [])
           "a/b" "X" 1).
  - reflexivity.
  - apply lookup_singleton_eq.
  - by vm_compute.
  - reflexivity.
Defined.

(** ** Where the claims C3 and C5 fail as they are stated *)

(** C3, as stated. [b.X("a", "k", p, "v")] with the offset 1 has three
    relevant arguments, one of them whitelisted; its only diagnostic is the
    arity diagnostic, no whitelist-mixing diagnostic. *)
Lemma mixing_rule_fails_for_odd_count :
  let tvs := [str "a"; str "k"; pairs; str "v"] in
  let c := call X tvs in
  (1 < length (relevant 1 c))%nat /\
  Exists (whitelistedArg whitelistedTypes (pass tvs)) (relevant 1 c) /\
  argsCorrect whitelistedTypes (pass tvs) "a/b.X" 1 c =
    Some [ {| Pos := 100; Message := "4 args passed to a/b.X; must be even" |} ] /\
  ~ (exists i, argsCorrect whitelistedTypes (pass tvs) "a/b.X" 1 c =
                 Some [mixingDiag c "a/b.X" i]).
Proof.
  intros tvs c. split; [vm_compute; lia|]. split; [|split].
  - apply Exists_cons_tl, Exists_cons_hd, isWhitelisted_iff. reflexivity.
  - reflexivity.
  - intros [i Hi].
    assert (argsCorrect whitelistedTypes (pass tvs) "a/b.X" 1 c =
            Some [ {| Pos := 100; Message := "4 args passed to a/b.X; must be even" |} ])
      as E by reflexivity.
    rewrite E in Hi. injection Hi as Hi.
    cbv [String.append] in Hi. discriminate Hi.
Qed.

(** C5, as stated. Two constants of the same kind, Int, one of type [int]
    and one of the named type [a.MyInt], get different messages, so the
    message does not name the kind of the constant: it names its type. And
    an argument at a key position that is no constant and has no recorded
    type, which is an expression other than one of string type, gets no
    diagnostic. *)
Lemma key_diagnostic_names_type_and_needs_type :
  let c1 := call X [str ""; int "1"; str "v"] in
  let c2 := call X [str ""; myint "1"; str "v"] in
  let c3 := call X [str ""; nothing; str "v"] in
  (argsCorrect whitelistedTypes (pass [str ""; int "1"; str "v"]) "a/b.X" 1 c1 =
     Some [ {| Pos := 102;
               Message := "arg 1 to a/b.X is constant int but should be a constant string" |} ] /\
   argsCorrect whitelistedTypes (pass [str ""; myint "1"; str "v"]) "a/b.X" 1 c2 =
     Some [ {| Pos := 102;
               Message := "arg 1 to a/b.X is constant a.MyInt but should be a constant string" |} ] /\
   ~ (exists kindName : constant.Kind -> string,
        argsCorrect whitelistedTypes (pass [str ""; int "1"; str "v"]) "a/b.X" 1 c1 =
          Some [ {| Pos := 102;
                    Message := "arg 1 to a/b.X is constant " +:+ kindName constant.Int
                                 +:+ " but should be a constant string" |} ] /\
        argsCorrect whitelistedTypes (pass [str ""; myint "1"; str "v"]) "a/b.X" 1 c2 =
          Some [ {| Pos := 102;
                    Message := "arg 1 to a/b.X is constant " +:+ kindName constant.Int
                                 +:+ " but should be a constant string" |} ])) /\
  (relevant 1 c3 = [ast.mkExpr 2 102; ast.mkExpr 3 103] /\
   TypesOf (pass [str ""; nothing; str "v"]) (ast.mkExpr 2 102) = types.mkTV None None /\
   argsCorrect whitelistedTypes (pass [str ""; nothing; str "v"]) "a/b.X" 1 c3 = Some []).
Proof.
  intros c1 c2 c3. repeat split.
  intros (kindName & H1 & H2).
  assert (argsCorrect whitelistedTypes (pass [str ""; int "1"; str "v"]) "a/b.X" 1 c1 =
     Some [ {| Pos := 102;
               Message := "arg 1 to a/b.X is constant int but should be a constant string" |} ])
    as E1 by reflexivity.
  assert (argsCorrect whitelistedTypes (pass [str ""; myint "1"; str "v"]) "a/b.X" 1 c2 =
     Some [ {| Pos := 102;
               Message := "arg 1 to a/b.X is constant a.MyInt but should be a constant string" |} ])
    as E2 by reflexivity.
  rewrite E1 in H1. rewrite E2, <- H1 in H2. discriminate H2.
Qed.

(** ** Where the claim C8 fails as it is stated *)

(** C8, as stated. The specifications [a.b/c] and [a.] have a [.], with
    the package [a] before it, and [typeWhitelist.Set] returns an error on
    both: the segment after the last [.] has a [/], or is empty. *)
Lemma whitelist_rejects_some_dotted_specifications :
  "a.b/c" = "a" +:+ "." +:+ "b/c" /\
  typeWhitelist_Set ∅ "a.b/c" =
    (∅, Some (errors.New "invalid type whitelist; should be of form <pkg>.<type>")) /\
  "a." = "a" +:+ "." +:+ "" /\
  typeWhitelist_Set ∅ "a." =
    (∅, Some (errors.New "invalid type whitelist; should be of form <pkg>.<type>")).
Proof. repeat split. Qed.

(** * The tests of the package, on the embedding *)

(** [TestFuncOffset]: the map after [Set] on the empty map, as the list of
    its entries, and the error. *)

Example TestFuncOffset_0 :
  set_result ".Log=0" = ([({| pkg := ""; typ := ""; fun_ := "Log" |}, 0)], None).
Proof. vm_compute. reflexivity. Qed.

Example TestFuncOffset_1 :
  set_result "go.zr.org/common/go/errors/details.Pairs.AddPairs=1" =
  ([({| pkg := "go.zr.org/common/go/errors/details"; typ := "Pairs"; fun_ := "AddPairs" |}, 1)],
   None).
Proof. vm_compute. reflexivity. Qed.

Example TestFuncOffset_2 :
  set_result "go.zr.org/common/go/errors.Wrap=2" =
  ([({| pkg := "go.zr.org/common/go/errors"; typ := ""; fun_ := "Wrap" |}, 2)], None).
Proof. vm_compute. reflexivity. Qed.

Example TestFuncOffset_3 :
  set_result "wrong" =
  ([], Some "invalid func offset; should be of form [pkg[.type]].<func>=<offset>").
Proof. vm_compute. reflexivity. Qed.

Example TestFuncOffset_4 :
  set_result ".wrong=999999999999999999999999999999999999" =
  ([], Some ("strconv.Atoi: parsing "
             +:+ String "034" ("999999999999999999999999999999999999"
             +:+ String "034" ": value out of range"))).
Proof. vm_compute. reflexivity. Qed.

(** The largest offset, and the first one that is out of range. *)
Example Set_maxInt :
  set_result ".f=9223372036854775807" =
    ([({| pkg := ""; typ := ""; fun_ := "f" |}, 9223372036854775807)], None) /\
  (funcOffset_Set ∅ ".f=9223372036854775808").2 =
    Some (NumError "Atoi" "9223372036854775808" strconv.ErrRange).
Proof. split; vm_compute; reflexivity. Qed.

(** [TestAnalysis]: the calls of the test file with the diagnostic that
    the test wants, or none. *)

Example test_flags :
  (funcOffset_SetAll ∅ flags).2 = None /\
  (typeWhitelist_Set ∅ "a/b.Pairs").2 = None /\
  map_to_list whitelistedTypes = [({| wpkg := "a/b"; wtyp := "Pairs" |}, true)].
Proof. repeat split; vm_compute; reflexivity. Qed.

Example Log_three_arguments :
  check Log [str "foo"; str "bar"; str "baz"] =
  Some [ {| Pos := 100;
            Message := "3 args passed to method (a.logger) Log(inputs ...interface{}); must be even" |} ].
Proof. vm_compute. reflexivity. Qed.

Example Log_int_key :
  check Log [int "1"; str "bar"] =
  Some [ {| Pos := 101;
            Message := "arg 0 to method (a.logger) Log(inputs ...interface{}) is constant int but should be a constant string" |} ].
Proof. vm_compute. reflexivity. Qed.

Example Log_logger_key :
  check Log [var logger; str "bar"] =
  Some [ {| Pos := 101;
            Message := "arg 0 to method (a.logger) Log(inputs ...interface{}) is expression a.logger but should be a constant string" |} ].
Proof. vm_compute. reflexivity. Qed.

Example Log_two_pairs : check Log [str "foo"; int "1"; str "bar"; str "baz"] = Some [].
Proof. vm_compute. reflexivity. Qed.

Example Log_pairs : check Log [pairs] = Some [].
Proof. vm_compute. reflexivity. Qed.

Example Z_one_argument :
  check Z_ [str "frew"] =
  Some [ {| Pos := 100;
            Message := "1 args passed to method (a/b.Y) Z(inputs ...interface{}); must be even" |} ].
Proof. vm_compute. reflexivity. Qed.

Example Z_int_key :
  check Z_ [int "1"; str "frew"] =
  Some [ {| Pos := 101;
            Message := "arg 0 to method (a/b.Y) Z(inputs ...interface{}) is constant int but should be a constant string" |} ].
Proof. vm_compute. reflexivity. Qed.

Example Z_pairs : check Z_ [pairs] = Some [].
Proof. vm_compute. reflexivity. Qed.

Example X_one_relevant_argument :
  check X [str ""; str "frew"] =
  Some [ {| Pos := 100; Message := "2 args passed to a/b.X; must be even" |} ].
Proof. vm_compute. reflexivity. Qed.

Example X_int_key :
  check X [str ""; int "1"; str "frew"] =
  Some [ {| Pos := 102;
            Message := "arg 1 to a/b.X is constant int but should be a constant string" |} ].
Proof. vm_compute. reflexivity. Qed.

Example X_logger_key :
  check X [str ""; var logger; str "frew"] =
  Some [ {| Pos := 102;
            Message := "arg 1 to a/b.X is expression a.logger but should be a constant string" |} ].
Proof. vm_compute. reflexivity. Qed.

Example X_string_variable_key :
  check X [str ""; var (types.Predeclared types.String); str "frew"] = Some [].
Proof. vm_compute. reflexivity. Qed.

Example X_pairs : check X [str "woo"; pairs] = Some [].
Proof. vm_compute. reflexivity. Qed.

Example X_pairs_mixed :
  check X [str "foo"; str "key/vales"; pairs] =
  Some [ {| Pos := 100;
            Message := "arg 2 to a/b.X is a whitelisted type; should pass one or none" |} ].
Proof. vm_compute. reflexivity. Qed.

(** Beyond the test file: arguments and receivers of the predeclared type
    [error], whose object has no package, and a key of type [rune]. *)

Example Log_error_value : check Log [str "err"; err] = None.
Proof. vm_compute. reflexivity. Qed.

Example Log_error_alone : check Log [err] = None.
Proof. vm_compute. reflexivity. Qed.

Example Log_error_after_pairs :
  check Log [pairs; err] =
  Some [ {| Pos := 100;
            Message := "arg 0 to method (a.logger) Log(inputs ...interface{}) is a whitelisted type; should pass one or none" |} ].
Proof. vm_compute. reflexivity. Qed.

Example Log_three_with_error :
  check Log [str "k"; err; str "v"] =
  Some [ {| Pos := 100;
            Message := "3 args passed to method (a.logger) Log(inputs ...interface{}); must be even" |} ].
Proof. vm_compute. reflexivity. Qed.

Example Error_method_call : check ErrorMethod [] = None.
Proof. vm_compute. reflexivity. Qed.

Example X_rune_key :
  check X [str ""; rune; str "frew"] =
  Some [ {| Pos := 102;
            Message := "arg 1 to a/b.X is expression rune but should be a constant string" |} ].
Proof. vm_compute. reflexivity. Qed.
